(** * DesignForge AI: the history / persistence / formatted-text core

    A shallow embedding of the state core of the application:

    - [JSON]: the values the design document is made of, together with the
      two built-ins the core relies on, [JSON.stringify] and [JSON.parse],
      and the object spread [{ ...a, ...b }];
    - [History]: the hook [useHistoryState] of [src/App.tsx] (initializer,
      [setState], [undo], [redo], the persistence effect, [canUndo],
      [canRedo]);
    - [Playground]: [renderFormattedText] and the keyboard handler of the
      playground component;
    - [Samples]: documents and stored texts the properties are tried on.

    Numbers are the integers a design document holds (font size, grid
    columns, grid gap); they stand for JavaScript numbers in the safe
    integer range, which [JSON.stringify] prints in plain decimal.  Strings
    are sequences of code units below 256. *)

From Stdlib Require Import Decimal.
From Stdlib Require DecimalFacts DecimalPos DecimalN DecimalZ.
From Stdlib Require Import List String Ascii ZArith NArith Lia Bool Arith.
Import ListNotations.

Local Open Scope list_scope.
Set Warnings "-register-all".

(* ================================================================== *)
(** * JSON values, [JSON.stringify], [JSON.parse], object spread *)
(* ================================================================== *)

Module JSON.

(** A JavaScript value that survives a trip through JSON: [null], a
    boolean, an integer number, a string, an array or an object.  An object
    is the list of its own enumerable properties in enumeration order: the
    order is observable through [JSON.stringify] and is therefore part of
    the model.  [undefined], functions and numbers that are not integers
    have no counterpart here. *)
Inductive value : Type :=
| JNull
| JBool (b : bool)
| JNum (n : Z)
| JStr (s : string)
| JArr (items : list value)
| JObj (props : list (string * value)).

Definition chars (s : string) : list ascii := list_ascii_of_string s.
Definition text (l : list ascii) : string := string_of_list_ascii l.

(** ** Serialisation *)

Definition dquote : ascii := ascii_of_nat 34.
Definition backslash : ascii := ascii_of_nat 92.

Definition hex_digit (n : nat) : ascii :=
  match n with
  | 0 => "0" | 1 => "1" | 2 => "2" | 3 => "3" | 4 => "4" | 5 => "5"
  | 6 => "6" | 7 => "7" | 8 => "8" | 9 => "9" | 10 => "a" | 11 => "b"
  | 12 => "c" | 13 => "d" | 14 => "e" | _ => "f"
  end%char.

(** [QuoteJSONString], one code unit at a time. *)
Definition escape_char (c : ascii) : list ascii :=
  let n := nat_of_ascii c in
  if Nat.eqb n 34 then [backslash; dquote]
  else if Nat.eqb n 92 then [backslash; backslash]
  else if Nat.eqb n 8 then [backslash; "b"%char]
  else if Nat.eqb n 9 then [backslash; "t"%char]
  else if Nat.eqb n 10 then [backslash; "n"%char]
  else if Nat.eqb n 12 then [backslash; "f"%char]
  else if Nat.eqb n 13 then [backslash; "r"%char]
  else if Nat.ltb n 32
       then [backslash; "u"; "0"; "0";
             hex_digit (n / 16); hex_digit (n mod 16)]%char
  else [c].

Definition quote (s : string) : list ascii :=
  (dquote :: flat_map escape_char (chars s)) ++ [dquote].

Fixpoint digits (d : uint) : list ascii :=
  match d with
  | Nil => []
  | D0 d => "0"%char :: digits d
  | D1 d => "1"%char :: digits d
  | D2 d => "2"%char :: digits d
  | D3 d => "3"%char :: digits d
  | D4 d => "4"%char :: digits d
  | D5 d => "5"%char :: digits d
  | D6 d => "6"%char :: digits d
  | D7 d => "7"%char :: digits d
  | D8 d => "8"%char :: digits d
  | D9 d => "9"%char :: digits d
  end.

Definition print_number (n : Z) : list ascii :=
  match Z.to_int n with
  | Pos d => digits d
  | Neg d => "-"%char :: digits d
  end.

Fixpoint join (parts : list (list ascii)) : list ascii :=
  match parts with
  | [] => []
  | [p] => p
  | p :: rest => p ++ ","%char :: join rest
  end.

Definition print_member (print : value -> list ascii) (kv : string * value)
  : list ascii :=
  quote (fst kv) ++ ":"%char :: print (snd kv).

Fixpoint print (v : value) : list ascii :=
  match v with
  | JNull => chars "null"
  | JBool true => chars "true"
  | JBool false => chars "false"
  | JNum n => print_number n
  | JStr s => quote s
  | JArr items => ("["%char :: join (map print items)) ++ ["]"%char]
  | JObj props =>
      ("{"%char :: join (map (print_member print) props)) ++ ["}"%char]
  end.

(** [JSON.stringify(v)] *)
Definition stringify (v : value) : string := text (print v).

(** ** Parsing

    [JSON.parse] on the texts the model can read: white space is space,
    tab, line feed and carriage return; strings admit the two-character
    escapes and the [uXXXX] escapes of code units below 256; a number is an
    optional minus sign followed by [0] or by a digit string without leading
    zero.  A reading ends in one of three ways: a value and the rest of the
    text, the [SyntaxError] of the grammar, or [Unsupported] when the text
    leaves the model (a fraction or exponent part, an escape of a code unit
    above 255, an integer that is not safe) and nothing is said about what
    the engine does with it. *)

Inductive outcome (A : Type) : Type :=
| Parsed (a : A) (rest : list ascii)
| SyntaxError
| Unsupported.

Arguments Parsed {A} a rest.
Arguments SyntaxError {A}.
Arguments Unsupported {A}.

Definition is_ws (c : ascii) : bool :=
  let n := nat_of_ascii c in
  Nat.eqb n 32 || Nat.eqb n 9 || Nat.eqb n 10 || Nat.eqb n 13.

Fixpoint skip_ws (l : list ascii) : list ascii :=
  match l with
  | c :: l' => if is_ws c then skip_ws l' else l
  | [] => []
  end.

Fixpoint strip_prefix (p l : list ascii) : option (list ascii) :=
  match p, l with
  | [], _ => Some l
  | a :: p', b :: l' => if Ascii.eqb a b then strip_prefix p' l' else None
  | _ :: _, [] => None
  end.

Definition hex_value (c : ascii) : option nat :=
  let n := nat_of_ascii c in
  if Nat.leb 48 n && Nat.leb n 57 then Some (n - 48)
  else if Nat.leb 97 n && Nat.leb n 102 then Some (n - 87)
  else if Nat.leb 65 n && Nat.leb n 70 then Some (n - 55)
  else None.

Definition unescape (c : ascii) : option ascii :=
  let n := nat_of_ascii c in
  if Nat.eqb n 34 then Some dquote
  else if Nat.eqb n 92 then Some backslash
  else if Nat.eqb n 47 then Some "/"%char
  else if Nat.eqb n 98 then Some (ascii_of_nat 8)
  else if Nat.eqb n 116 then Some (ascii_of_nat 9)
  else if Nat.eqb n 110 then Some (ascii_of_nat 10)
  else if Nat.eqb n 102 then Some (ascii_of_nat 12)
  else if Nat.eqb n 114 then Some (ascii_of_nat 13)
  else None.

Definition prepend {A : Type} (a : A) (r : outcome (list A))
  : outcome (list A) :=
  match r with
  | Parsed l rest => Parsed (a :: l) rest
  | SyntaxError => SyntaxError
  | Unsupported => Unsupported
  end.

(** The body of a string literal, after its opening quote. *)
Fixpoint parse_string (l : list ascii) : outcome (list ascii) :=
  match l with
  | [] => SyntaxError
  | c :: l' =>
      if Ascii.eqb c dquote then Parsed [] l'
      else if Ascii.eqb c backslash then
        match l' with
        | [] => SyntaxError
        | e :: l'' =>
            if Ascii.eqb e "u" then
              match l'' with
              | h1 :: h2 :: h3 :: h4 :: l3 =>
                  match hex_value h1, hex_value h2,
                        hex_value h3, hex_value h4 with
                  | Some a, Some b, Some c3, Some d =>
                      let code := ((a * 16 + b) * 16 + c3) * 16 + d in
                      if Nat.ltb code 256
                      then prepend (ascii_of_nat code) (parse_string l3)
                      else Unsupported
                  | _, _, _, _ => SyntaxError
                  end
              | _ => SyntaxError
              end
            else
              match unescape e with
              | Some c' => prepend c' (parse_string l'')
              | None => SyntaxError
              end
        end
      else if Nat.ltb (nat_of_ascii c) 32 then SyntaxError
      else prepend c (parse_string l')
  end.

Definition digit_of (c : ascii) : option (uint -> uint) :=
  match nat_of_ascii c with
  | 48 => Some D0 | 49 => Some D1 | 50 => Some D2 | 51 => Some D3
  | 52 => Some D4 | 53 => Some D5 | 54 => Some D6 | 55 => Some D7
  | 56 => Some D8 | 57 => Some D9 | _ => None
  end.

Fixpoint read_digits (l : list ascii) : uint * list ascii :=
  match l with
  | [] => (Nil, [])
  | c :: l' =>
      match digit_of c with
      | Some D => let (d, rest) := read_digits l' in (D d, rest)
      | None => (Nil, l)
      end
  end.

(** The integer part of a number has been read; a fraction or an exponent
    after it takes the number out of the model. *)
Definition integer (n : Z) (rest : list ascii) : outcome Z :=
  match rest with
  | c :: _ =>
      if Ascii.eqb c "." || Ascii.eqb c "e" || Ascii.eqb c "E"
      then Unsupported
      else Parsed n rest
  | [] => Parsed n rest
  end.

Definition parse_unsigned (l : list ascii) : outcome Z :=
  match l with
  | [] => SyntaxError
  | c :: l' =>
      if Ascii.eqb c "0" then integer 0%Z l'
      else match digit_of c with
           | Some _ => let (d, rest) := read_digits l in
                       integer (Z.of_uint d) rest
           | None => SyntaxError
           end
  end.

Definition parse_number (l : list ascii) : outcome Z :=
  match l with
  | c :: l' =>
      if Ascii.eqb c "-" then
        match parse_unsigned l' with
        | Parsed n rest => Parsed (Z.opp n) rest
        | SyntaxError => SyntaxError
        | Unsupported => Unsupported
        end
      else parse_unsigned l
  | [] => SyntaxError
  end.

Definition keyword (kw : string) (v : value) (l : list ascii)
  : outcome value :=
  match strip_prefix (chars kw) l with
  | Some rest => Parsed v rest
  | None => SyntaxError
  end.

(** What is done with a reading once it succeeded. *)
Definition and_then {A B : Type} (r : outcome A)
  (k : A -> list ascii -> outcome B) : outcome B :=
  match r with
  | Parsed a rest => k a rest
  | SyntaxError => SyntaxError
  | Unsupported => Unsupported
  end.

(** The grammar proper.  [fuel] bounds the depth of the calls; the text is
    read with more fuel than it has characters to spend (see [read]), and
    running out of it is reported as [Unsupported].  Objects come out as
    the member lists of the text, in textual order and with repeated keys;
    [normalize] below builds the objects. *)
Fixpoint parse_value (fuel : nat) (l : list ascii) : outcome value :=
  match fuel with
  | 0 => Unsupported
  | S fuel' =>
      match skip_ws l with
      | [] => SyntaxError
      | c :: r =>
          if Ascii.eqb c "[" then
            match skip_ws r with
            | [] => SyntaxError
            | c' :: r' =>
                if Ascii.eqb c' "]" then Parsed (JArr []) r'
                else and_then (parse_items fuel' (c' :: r'))
                       (fun vs rest => Parsed (JArr vs) rest)
            end
          else if Ascii.eqb c "{" then
            match skip_ws r with
            | [] => SyntaxError
            | c' :: r' =>
                if Ascii.eqb c' "}" then Parsed (JObj []) r'
                else and_then (parse_members fuel' (c' :: r'))
                       (fun ms rest => Parsed (JObj ms) rest)
            end
          else if Ascii.eqb c dquote then
            and_then (parse_string r) (fun s rest => Parsed (JStr (text s)) rest)
          else if Ascii.eqb c "n" then keyword "ull" JNull r
          else if Ascii.eqb c "t" then keyword "rue" (JBool true) r
          else if Ascii.eqb c "f" then keyword "alse" (JBool false) r
          else and_then (parse_number (c :: r))
                 (fun n rest => Parsed (JNum n) rest)
      end
  end

with parse_items (fuel : nat) (l : list ascii) : outcome (list value) :=
  match fuel with
  | 0 => Unsupported
  | S fuel' =>
      and_then (parse_value fuel' l)
        (fun v r =>
           match skip_ws r with
           | [] => SyntaxError
           | c :: r' =>
               if Ascii.eqb c "," then prepend v (parse_items fuel' r')
               else if Ascii.eqb c "]" then Parsed [v] r'
               else SyntaxError
           end)
  end

with parse_members (fuel : nat) (l : list ascii)
  : outcome (list (string * value)) :=
  match fuel with
  | 0 => Unsupported
  | S fuel' =>
      match skip_ws l with
      | [] => SyntaxError
      | q :: r =>
          if Ascii.eqb q dquote then
            and_then (parse_string r)
              (fun k r1 =>
                 match skip_ws r1 with
                 | [] => SyntaxError
                 | c1 :: r2 =>
                     if Ascii.eqb c1 ":" then
                       and_then (parse_value fuel' r2)
                         (fun v r3 =>
                            match skip_ws r3 with
                            | [] => SyntaxError
                            | c :: r4 =>
                                if Ascii.eqb c "," then
                                  prepend (text k, v) (parse_members fuel' r4)
                                else if Ascii.eqb c "}" then
                                  Parsed [(text k, v)] r4
                                else SyntaxError
                            end)
                     else SyntaxError
                 end)
          else SyntaxError
      end
  end.

(** ** Objects as ordered property lists *)

Fixpoint lookup (k : string) (o : list (string * value)) : option value :=
  match o with
  | [] => None
  | (k', v) :: o' => if String.eqb k k' then Some v else lookup k o'
  end.

(** The property read [v[k]] on an object; [None] is [undefined]. *)
Definition prop (k : string) (v : value) : option value :=
  match v with
  | JObj props => lookup k props
  | _ => None
  end.

Definition has_key (k : string) (o : list (string * value)) : bool :=
  match lookup k o with Some _ => true | None => false end.

Definition keys (o : list (string * value)) : list string := map fst o.

(** A property key that is a canonical array index ([0] to [2^32 - 2]) is
    enumerated before every other key, in numeric order. *)
Definition array_index (k : string) : option N :=
  match read_digits (chars k) with
  | (d, []) =>
      let n := N.of_uint d in
      if list_eq_dec ascii_dec (digits (N.to_uint n)) (chars k)
      then if N.ltb n 4294967295 then Some n else None
      else None
  | _ => None
  end.

Fixpoint replace_prop (k : string) (v : value) (o : list (string * value))
  : list (string * value) :=
  match o with
  | [] => []
  | (k', v') :: o' =>
      if String.eqb k k' then (k', v) :: o'
      else (k', v') :: replace_prop k v o'
  end.

Fixpoint insert_index (i : N) (k : string) (v : value)
  (o : list (string * value)) : list (string * value) :=
  match o with
  | [] => [(k, v)]
  | (k', v') :: o' =>
      match array_index k' with
      | Some j => if N.ltb j i then (k', v') :: insert_index i k v o'
                  else (k, v) :: o
      | None => (k, v) :: o
      end
  end.

(** [CreateDataProperty(o, k, v)]: an existing key keeps its place and
    takes the new value; a new key is created, at the end unless it is an
    array index. *)
Definition define_prop (k : string) (v : value) (o : list (string * value))
  : list (string * value) :=
  if has_key k o then replace_prop k v o
  else match array_index k with
       | Some i => insert_index i k v o
       | None => o ++ [(k, v)]
       end.

Definition define_all (ps o : list (string * value))
  : list (string * value) :=
  fold_left (fun acc kv => define_prop (fst kv) (snd kv) acc) ps o.

Fixpoint normalize (v : value) : value :=
  match v with
  | JArr items => JArr (map normalize items)
  | JObj props =>
      JObj (define_all (map (fun kv => (fst kv, normalize (snd kv))) props) [])
  | _ => v
  end.

(** The integers every number of a document must lie between for the
    model to print and read it as the engine does. *)
Definition MAX_SAFE_INTEGER : Z := 9007199254740991.

Fixpoint safe (v : value) : bool :=
  match v with
  | JNum n => Z.leb (- MAX_SAFE_INTEGER) n && Z.leb n MAX_SAFE_INTEGER
  | JArr items => forallb safe items
  | JObj props => forallb (fun kv => safe (snd kv)) props
  | _ => true
  end.

(** A whole text: one value, white space around it and nothing else. *)
Definition read (s : string) : outcome value :=
  let l := chars s in
  and_then (parse_value (2 * List.length l + 2) l)
    (fun v rest =>
       match skip_ws rest with
       | [] => if safe v then Parsed (normalize v) [] else Unsupported
       | _ :: _ => SyntaxError
       end).

(** [JSON.parse(s)] as the hook sees it: a value, or [None] for the
    exception it throws.  On a text that [read] leaves as [Unsupported] the
    model answers [None] as well and does not follow the engine; the
    properties below that speak of a failed parse ask for
    [read s = SyntaxError]. *)
Definition parse (s : string) : option value :=
  match read s with
  | Parsed v _ => Some v
  | SyntaxError | Unsupported => None
  end.

(** ** Object spread

    [{ ...a, ...b }] copies the own enumerable properties of each operand
    in turn ([CopyDataProperties]).  [null], numbers and booleans have none;
    an array has its indices, a string its code units. *)
Definition index_key (i : nat) : string := text (digits (N.to_uint (N.of_nat i))).

Fixpoint indexed (i : nat) (items : list value) : list (string * value) :=
  match items with
  | [] => []
  | v :: rest => (index_key i, v) :: indexed (S i) rest
  end.

Definition own_props (v : value) : list (string * value) :=
  match v with
  | JObj props => props
  | JArr items => indexed 0 items
  | JStr s => indexed 0 (map (fun c => JStr (String c EmptyString)) (chars s))
  | JNull | JBool _ | JNum _ => []
  end.

Definition spread (target : list (string * value)) (source : value)
  : list (string * value) :=
  define_all (own_props source) target.

(** ** Measures and well-formedness *)

(** The depth of calls [parse_value] needs to read a value back. *)
Fixpoint size (v : value) : nat :=
  match v with
  | JArr items => S (list_sum (map (fun x => S (size x)) items))
  | JObj props => S (list_sum (map (fun kv => S (size (snd kv))) props))
  | _ => 1
  end.

Definition items_size (vs : list value) : nat :=
  list_sum (map (fun x => S (size x)) vs).

Definition members_size (ps : list (string * value)) : nat :=
  list_sum (map (fun kv => S (size (snd kv))) ps).

(** What may follow a value in a text: nothing, or the code unit that
    separates it from the next or closes the enclosing array or object. *)
Definition closes (rest : list ascii) : Prop :=
  match rest with
  | [] => True
  | c :: _ => c = ","%char \/ c = "]"%char \/ c = "}"%char
  end.

Fixpoint distinct (ks : list string) : bool :=
  match ks with
  | [] => true
  | k :: ks' => negb (existsb (String.eqb k) ks') && distinct ks'
  end.

Definition plain_key (k : string) : bool :=
  match array_index k with Some _ => false | None => true end.


(** ** Deep equality

    Two values are deeply equal when they have the same shape and the same
    leaves; objects are compared as maps, whatever the order of their keys. *)
Fixpoint deep_eqb (a b : value) : bool :=
  match a, b with
  | JNull, JNull => true
  | JBool x, JBool y => Bool.eqb x y
  | JNum x, JNum y => Z.eqb x y
  | JStr x, JStr y => String.eqb x y
  | JArr xs, JArr ys =>
      (fix all2 (xs ys : list value) : bool :=
         match xs, ys with
         | [], [] => true
         | x :: xs', y :: ys' => deep_eqb x y && all2 xs' ys'
         | _, _ => false
         end) xs ys
  | JObj ps, JObj qs =>
      Nat.eqb (List.length ps) (List.length qs)
      && forallb (fun kv =>
                    match lookup (fst kv) qs with
                    | Some w => deep_eqb (snd kv) w
                    | None => false
                    end) ps
  | _, _ => false
  end.

End JSON.


(* ================================================================== *)
(** * The history hook of [src/App.tsx] *)
(* ================================================================== *)

Module History.
Import JSON.

Local Open Scope string_scope.

Definition STORAGE_KEY : string := "design-forge-storage-v1".

Definition DEFAULT_DESIGN : value :=
  JObj
    [ ("primaryColor", JStr "#3b82f6");
      ("secondaryColor", JStr "#10b981");
      ("fontFamily", JStr "sans");
      ("borderRadius", JStr "md");
      ("layoutMode", JStr "landing");
      ("darkMode", JBool true);
      ("baseFontSize", JNum 16);
      ("headingText", JStr "Build Your **Next Idea**");
      ("subheadingText",
        JStr "A visual playground for developers and designers to conceptualize interfaces instantly.");
      ("bodyText",
        JStr "Automated styling and layout generation for rapid prototyping.");
      ("gridColumns", JNum 3);
      ("gridGap", JNum 24) ].

Local Close Scope string_scope.

(** The state held by [useState] inside [useHistoryState]. *)
Record history : Type := mkHistory {
  past : list value;
  present : value;
  future : list value
}.

(** The lazy initializer of [useState].  [item] is what
    [localStorage.getItem(key)] returned ([None] for [null]); the empty
    text is falsy and skipped like [null]; a text that [JSON.parse] rejects
    lands in the [catch] block, after which the default record is
    returned. *)
Definition init (initialValue : value) (item : option string) : history :=
  let fallback := mkHistory [] initialValue [] in
  match item with
  | None => fallback
  | Some EmptyString => fallback
  | Some s =>
      match parse s with
      | Some stored =>
          mkHistory [] (JObj (spread (spread [] initialValue) stored)) []
      | None => fallback
      end
  end.

(** The argument of [setState]: a new document, or a function of the
    current one. *)
Inductive SetStateAction : Type :=
| NewValue (v : value)
| Updater (f : value -> value).

Definition resolve (newState : SetStateAction) (prevState : value) : value :=
  match newState with
  | Updater f => f prevState
  | NewValue v => v
  end.

(** The function [setState] hands to [setHistory]. *)
Definition setState (newState : SetStateAction) (curr : history) : history :=
  let value := resolve newState (present curr) in
  if String.eqb (stringify value) (stringify (present curr)) then curr
  else mkHistory (past curr ++ [present curr]) value [].

(** The function [undo] hands to [setHistory].  The index read is in range
    by the test on the length that precedes it. *)
Definition undo (curr : history) : history :=
  if Nat.eqb (List.length (past curr)) 0 then curr
  else
    match nth_error (past curr) (List.length (past curr) - 1) with
    | Some previous =>
        let newPast := firstn (List.length (past curr) - 1) (past curr) in
        mkHistory newPast previous (present curr :: future curr)
    | None => curr
    end.

(** The function [redo] hands to [setHistory]. *)
Definition redo (curr : history) : history :=
  if Nat.eqb (List.length (future curr)) 0 then curr
  else
    match nth_error (future curr) 0 with
    | Some next =>
        let newFuture := skipn 1 (future curr) in
        mkHistory (past curr ++ [present curr]) next newFuture
    | None => curr
    end.

(** The documents of a history in chronological order. *)
Definition timeline (h : history) : list value :=
  past h ++ present h :: future h.

(** The oldest document a history holds. *)
Definition oldest (h : history) : value := hd (present h) (past h).

(** A burst of [setState] calls, one per document. *)
Definition run (ds : list value) (h : history) : history :=
  fold_left (fun acc d => setState (NewValue d) acc) ds h.

Definition canUndo (h : history) : bool := Nat.ltb 0 (List.length (past h)).
Definition canRedo (h : history) : bool := Nat.ltb 0 (List.length (future h)).

(** ** The hook as React runs it

    A mounted hook: the history record, the storage slot under [key] and
    the texts handed to [localStorage.setItem] so far (latest first). *)
Record session : Type := mkSession {
  hist : history;
  slot : option string;
  writes : list string
}.

(** The effect [useEffect(() => localStorage.setItem(key,
    JSON.stringify(present)), [present, key])], on a storage that accepts
    the write.  A refused write is caught and logged by the effect and
    leaves the slot as it was: [Lifecycle.persist_on] is the effect on a
    storage that may refuse. *)
Definition persist (h : history) (s : session) : session :=
  let payload := stringify (present h) in
  mkSession h (Some payload) (payload :: writes s).

(** Structural comparison, standing for [Object.is] where React applies it
    to this hook: each of the three updaters returns either its argument or
    a record that differs from it (lemmas [setState_fixed], [undo_fixed],
    [redo_fixed]), and in a history the hook can reach neighbouring
    documents differ (lemma [reachable_steady]). *)
Fixpoint value_eqb (a b : value) : bool :=
  match a, b with
  | JNull, JNull => true
  | JBool x, JBool y => Bool.eqb x y
  | JNum x, JNum y => Z.eqb x y
  | JStr x, JStr y => String.eqb x y
  | JArr xs, JArr ys =>
      (fix all2 (xs ys : list value) : bool :=
         match xs, ys with
         | [], [] => true
         | x :: xs', y :: ys' => value_eqb x y && all2 xs' ys'
         | _, _ => false
         end) xs ys
  | JObj ps, JObj qs =>
      (fix all2 (ps qs : list (string * value)) : bool :=
         match ps, qs with
         | [], [] => true
         | (k, x) :: ps', (k', y) :: qs' =>
             String.eqb k k' && value_eqb x y && all2 ps' qs'
         | _, _ => false
         end) ps qs
  | _, _ => false
  end.

Fixpoint values_eqb (xs ys : list value) : bool :=
  match xs, ys with
  | [], [] => true
  | x :: xs', y :: ys' => value_eqb x y && values_eqb xs' ys'
  | _, _ => false
  end.

Definition history_eqb (a b : history) : bool :=
  values_eqb (past a) (past b)
  && value_eqb (present a) (present b)
  && values_eqb (future a) (future b).

(** [setHistory(updater)]: React computes the next state, skips the render
    when it is the current one, and after a render runs the effect when
    its dependency [present] changed. *)
Definition setHistory (updater : history -> history) (s : session) : session :=
  let next := updater (hist s) in
  if history_eqb next (hist s) then s
  else if value_eqb (present next) (present (hist s))
       then mkSession next (slot s) (writes s)
       else persist next s.

(** No two neighbours of a list of documents are the same. *)
Fixpoint steady (l : list value) : Prop :=
  match l with
  | a :: (b :: _) as rest => a <> b /\ steady rest
  | _ => True
  end.

(** The histories the hook goes through, from the one the initializer
    builds from [initialValue] and the slot. *)
Inductive reachable (initialValue : value) (stored : option string)
  : history -> Prop :=
| reach_init : reachable initialValue stored (init initialValue stored)
| reach_setState (u : SetStateAction) (h : history) :
    reachable initialValue stored h ->
    reachable initialValue stored (setState u h)
| reach_undo (h : history) :
    reachable initialValue stored h -> reachable initialValue stored (undo h)
| reach_redo (h : history) :
    reachable initialValue stored h -> reachable initialValue stored (redo h).

(** The first render of [useHistoryState(initialValue, key)] with [stored]
    in the slot: the initializer reads the slot, and the effect runs once. *)
Definition useHistoryState (initialValue : value) (stored : option string)
  : session :=
  persist (init initialValue stored)
    (mkSession (init initialValue stored) stored []).

End History.

(* ================================================================== *)
(** * The playground component *)
(* ================================================================== *)

Module Playground.
Import JSON History.

(** ** [renderFormattedText] *)

(** [.] of a regular expression without the [s] flag: any code unit but a
    line terminator. *)
Definition is_line_terminator (c : ascii) : bool :=
  Nat.eqb (nat_of_ascii c) 10 || Nat.eqb (nat_of_ascii c) 13.

(** [.*?] followed by the literal [delim]: the shortest run of [.] after
    which [delim] matches. *)
Fixpoint lazy_until (delim l : list ascii) : option (list ascii * list ascii) :=
  match strip_prefix delim l with
  | Some rest => Some ([], rest)
  | None =>
      match l with
      | [] => None
      | c :: l' =>
          if is_line_terminator c then None
          else match lazy_until delim l' with
               | Some (run, rest) => Some (c :: run, rest)
               | None => None
               end
      end
  end.

Definition delimited (delim l : list ascii) : option (list ascii * list ascii) :=
  match strip_prefix delim l with
  | None => None
  | Some r =>
      match lazy_until delim r with
      | Some (mid, rest) => Some (delim ++ mid ++ delim, rest)
      | None => None
      end
  end.

(** One attempt of the pattern of [renderFormattedText] at the head of
    [l]: the alternative with two asterisks is tried first. *)
Definition match_at (l : list ascii) : option (list ascii * list ascii) :=
  match delimited (chars "**") l with
  | Some m => Some m
  | None => delimited (chars "*") l
  end.

(** [String.prototype.split] with this pattern, whose single capturing
    group is the whole match: the pieces between the matches alternate
    with the matches themselves. *)
Fixpoint split_loop (fuel : nat) (piece l : list ascii) : list (list ascii) :=
  match fuel with
  | 0 => []
  | S fuel' =>
      match l with
      | [] => [piece]
      | c :: l' =>
          match match_at l with
          | Some (m, rest) => piece :: m :: split_loop fuel' [] rest
          | None => split_loop fuel' (piece ++ [c]) l'
          end
      end
  end.

Definition split (s : list ascii) : list (list ascii) :=
  split_loop (S (List.length s)) [] s.

Definition startsWith (s p : list ascii) : bool :=
  match strip_prefix p s with Some _ => true | None => false end.

Definition endsWith (s p : list ascii) : bool :=
  startsWith (rev s) (rev p).

(** [String.prototype.slice(start, stop)], negative indices counting from
    the end. *)
Definition slice (s : list ascii) (start stop : Z) : list ascii :=
  let len := Z.of_nat (List.length s) in
  let from := if Z.ltb start 0 then Z.max (len + start) 0 else Z.min start len in
  let to := if Z.ltb stop 0 then Z.max (len + stop) 0 else Z.min stop len in
  firstn (Z.to_nat (to - from)) (skipn (Z.to_nat from) s).

(** What [renderFormattedText] returns for one part: a bare string, a
    [<strong>] in the primary colour or an [<em>] in the secondary colour. *)
Inductive node : Type :=
| Plain (s : string)
| Strong (color : string) (s : string)
| Em (color : string) (s : string).

Definition render_part (primaryColor secondaryColor : string)
  (part : list ascii) : node :=
  if startsWith part (chars "**") && endsWith part (chars "**")
  then Strong primaryColor (text (slice part 2 (-2)))
  else if startsWith part (chars "*") && endsWith part (chars "*")
  then Em secondaryColor (text (slice part 1 (-1)))
  else Plain (text part).

(** [None] is the [null] returned for an empty text. *)
Definition renderFormattedText (txt primaryColor secondaryColor : string)
  : option (list node) :=
  match txt with
  | EmptyString => None
  | _ => Some (map (render_part primaryColor secondaryColor) (split (chars txt)))
  end.

(** The characters a node puts on the screen. *)
Definition shown (n : node) : string :=
  match n with
  | Plain s => s
  | Strong _ s => s
  | Em _ s => s
  end.

(** The text a rendering puts on the screen, node after node. *)
Definition screen (r : option (list node)) : string :=
  match r with
  | Some nodes => String.concat EmptyString (map shown nodes)
  | None => EmptyString
  end.

(** ** Keyboard shortcuts *)

Record KeyboardEvent : Type := mkKey {
  ctrlKey : bool;
  metaKey : bool;
  shiftKey : bool;
  key : string
}.

(** [handleKeyDown]; the component state [S] is whatever [onUndo] and
    [onRedo] act on.  The first component of the result tells whether
    [preventDefault] was called. *)
Definition handleKeyDown {S : Type} (canUndo canRedo : bool)
  (onUndo onRedo : S -> S) (e : KeyboardEvent) (s : S) : bool * S :=
  if ctrlKey e || metaKey e then
    if String.eqb (key e) "z" then
      if shiftKey e
      then (true, if canRedo then onRedo s else s)
      else (true, if canUndo then onUndo s else s)
    else if String.eqb (key e) "y" then
      (true, if canRedo then onRedo s else s)
    else (false, s)
  else (false, s).

(** The handler as [App] wires it: [canUndo], [canRedo], [undo] and [redo]
    of the hook are the props of the playground. *)
Definition keydown (e : KeyboardEvent) (s : session) : bool * session :=
  handleKeyDown (History.canUndo (hist s)) (History.canRedo (hist s))
    (setHistory undo) (setHistory redo) e s.

End Playground.

(* ================================================================== *)
(** * The hook over a whole editing session *)
(* ================================================================== *)

Module Lifecycle.
Import JSON History.

(** The effect that stores the document, on a storage that refuses some
    texts (a full quota): for a text outside [accepts], [setItem] throws,
    the [catch] block of the effect logs the exception, and the slot stays
    as it was.  [writes] records every text handed to [setItem], refused
    or not. *)
Definition persist_on (accepts : string -> bool) (h : history) (s : session)
  : session :=
  let payload := stringify (present h) in
  mkSession h (if accepts payload then Some payload else slot s)
    (payload :: writes s).

(** [setHistory(updater)] with that effect. *)
Definition setHistory_on (accepts : string -> bool)
  (updater : history -> history) (s : session) : session :=
  let next := updater (hist s) in
  if history_eqb next (hist s) then s
  else if value_eqb (present next) (present (hist s))
       then mkSession next (slot s) (writes s)
       else persist_on accepts next s.

(** The first render with [stored] in the slot. *)
Definition mount (accepts : string -> bool) (initialValue : value)
  (stored : option string) : session :=
  persist_on accepts (init initialValue stored)
    (mkSession (init initialValue stored) stored []).

(** A slot whose text, if any, [read] follows the engine on. *)
Definition readable (stored : option string) : Prop :=
  match stored with
  | Some s => read s <> Unsupported
  | None => True
  end.

(** The sessions a mounted hook goes through: the first render, then any
    sequence of [setState], [undo] and [redo] calls.  The defaults and
    every document handed to [setState] hold integers the model prints as
    the engine does. *)
Inductive live (accepts : string -> bool) (initialValue : value)
  (stored : option string) : session -> Prop :=
| live_mount :
    safe initialValue = true -> readable stored ->
    live accepts initialValue stored (mount accepts initialValue stored)
| live_setState (u : SetStateAction) (s : session) :
    live accepts initialValue stored s ->
    safe (resolve u (present (hist s))) = true ->
    live accepts initialValue stored (setHistory_on accepts (setState u) s)
| live_undo (s : session) :
    live accepts initialValue stored s ->
    live accepts initialValue stored (setHistory_on accepts undo s)
| live_redo (s : session) :
    live accepts initialValue stored s ->
    live accepts initialValue stored (setHistory_on accepts redo s).

(** The latest text the storage accepted, or what the slot held at the
    mount when it accepted none. *)
Definition latest_accepted (accepts : string -> bool)
  (stored : option string) (s : session) : option string :=
  match find accepts (writes s) with
  | Some payload => Some payload
  | None => stored
  end.

(** The latest text handed to [setItem] is the text of the present
    document, and the slot holds the latest text that was accepted. *)
Definition in_sync (accepts : string -> bool) (stored : option string)
  (s : session) : Prop :=
  hd_error (writes s) = Some (stringify (present (hist s)))
  /\ slot s = latest_accepted accepts stored s.

(** A storage with room for [quota] code units. *)
Definition within (quota : nat) (payload : string) : bool :=
  Nat.leb (String.length payload) quota.

End Lifecycle.

(* ================================================================== *)
(** * The updaters the components pass to [setDesign] *)
(* ================================================================== *)

Module Controls.
Import JSON History.

(** [p => ({ ...p, k: v })], the updater of every control of the
    playground (layout, radius, grid, colours, texts, font, font size). *)
Definition setField (k : string) (v : value) : SetStateAction :=
  Updater (fun p => JObj (define_prop k v (spread [] p))).

(** [prev => ({ ...prev, ...newSettings })], the updater of the chat
    assistant's [updateDesign] tool call. *)
Definition applySettings (newSettings : value) : SetStateAction :=
  Updater (fun prev => JObj (spread (spread [] prev) newSettings)).

End Controls.

(* ================================================================== *)
(** * The preview of the playground *)
(* ================================================================== *)

Module Preview.
Import JSON.

Local Open Scope string_scope.

(** [Array.prototype.slice(start, stop)], negative indices counting from
    the end. *)
Definition array_slice {A : Type} (l : list A) (start stop : Z) : list A :=
  let len := Z.of_nat (List.length l) in
  let from := if Z.ltb start 0 then Z.max (len + start) 0 else Z.min start len in
  let to := if Z.ltb stop 0 then Z.max (len + stop) 0 else Z.min stop len in
  firstn (Z.to_nat (to - from)) (skipn (Z.to_nat from) l).

(** The feature cards of the landing layout:
    [[1,2,3,4].slice(0, Math.max(3, gridColumns))]. *)
Definition landing_cards (gridColumns : Z) : list Z :=
  array_slice [1; 2; 3; 4]%Z 0 (Z.max 3 gridColumns).

(** The products of the shop layout:
    [[1,2,3,4,5,6,7,8].slice(0, gridColumns * 2)]. *)
Definition ecommerce_products (gridColumns : Z) : list Z :=
  array_slice [1; 2; 3; 4; 5; 6; 7; 8]%Z 0 (gridColumns * 2).

(** What [table[k]] evaluates to on an object literal whose values are
    strings: its own entry, a member of [Object.prototype] (a function or
    an object), or [undefined]. *)
Inductive member : Type :=
| Own (s : string)
| Inherited
| Undefined.

Definition Object_prototype : list string :=
  [ "constructor"; "hasOwnProperty"; "isPrototypeOf"; "propertyIsEnumerable";
    "toLocaleString"; "toString"; "valueOf"; "__proto__";
    "__defineGetter__"; "__defineSetter__";
    "__lookupGetter__"; "__lookupSetter__" ].

Fixpoint entry (table : list (string * string)) (k : string) : option string :=
  match table with
  | [] => None
  | (k', s) :: rest => if String.eqb k k' then Some s else entry rest k
  end.

Definition get (table : list (string * string)) (k : string) : member :=
  match entry table k with
  | Some s => Own s
  | None => if existsb (String.eqb k) Object_prototype then Inherited
            else Undefined
  end.

(** [a || b] *)
Definition or_else (a b : member) : member :=
  match a with
  | Own EmptyString => b
  | Undefined => b
  | _ => a
  end.

Definition radiusMap : list (string * string) :=
  [ ("none", "0px"); ("sm", "0.125rem"); ("md", "0.375rem");
    ("lg", "0.5rem"); ("full", "9999px") ].

Definition fontMap : list (string * string) :=
  [ ("sans", "ui-sans-serif, system-ui, sans-serif");
    ("serif", "ui-serif, Georgia, serif");
    ("mono", "ui-monospace, SFMono-Regular, monospace");
    ("Inter", text (dquote :: chars "Inter" ++ dquote :: chars ", sans-serif"));
    ("Playfair Display",
      text (dquote :: chars "Playfair Display" ++ dquote :: chars ", serif"));
    ("Roboto", text (dquote :: chars "Roboto" ++ dquote :: chars ", sans-serif"));
    ("Lato", text (dquote :: chars "Lato" ++ dquote :: chars ", sans-serif")) ].

Definition fontOptions : list string :=
  [ "sans"; "serif"; "mono"; "Inter"; "Playfair Display"; "Roboto"; "Lato" ].

(** The options of the border-radius select. *)
Definition radiusOptions : list string := [ "none"; "sm"; "md"; "lg"; "full" ].

(** The custom properties [--font-family] and [--radius] of
    [getPreviewStyles], as functions of the name the document holds. *)
Definition fontFamilyVar (fontFamily : string) : member :=
  or_else (get fontMap fontFamily) (get fontMap "sans").

Definition radiusVar (borderRadius : string) : member :=
  get radiusMap borderRadius.


(** The [borderRadius.DEFAULT] of the Tailwind preset the blueprint view
    prints. *)
Definition tailwindRadius (borderRadius : string) : string :=
  if String.eqb borderRadius "full" then "9999px"
  else if String.eqb borderRadius "none" then "0px"
  else "0.375rem".

End Preview.

(* ================================================================== *)
(** * The save indicator of the playground *)
(* ================================================================== *)

Module SaveIndicator.

(** The state behind the two effects: [isSaved], the ref [isFirstRender],
    and the two timers, each with the milliseconds left before it fires
    ([None] when it is not armed or was cleared). *)
Record indicator : Type := mkIndicator {
  isSaved : bool;
  isFirstRender : bool;
  saveTimer : option nat;
  hideTimer : option nat
}.

Definition SAVE_DELAY : nat := 1000.
Definition HIDE_DELAY : nat := 2000.

(** The component before its first effect ran. *)
Definition initial : indicator := mkIndicator false true None None.

(** [setIsSaved(b)] and the effect that depends on [isSaved]: nothing
    happens when the state already is [b]; otherwise the cleanup clears the
    hide timer and the effect arms it anew when [b] is [true]. *)
Definition setIsSaved (b : bool) (i : indicator) : indicator :=
  if Bool.eqb (isSaved i) b then i
  else mkIndicator b (isFirstRender i) (saveTimer i)
         (if b then Some HIDE_DELAY else None).

(** The effect that depends on [design], run at the first render and at
    every render with a new document: the cleanup of the previous run
    clears the save timer; the first run only lowers the flag; every other
    run hides the message and arms the save timer. *)
Definition designChanged (i : indicator) : indicator :=
  if isFirstRender i
  then mkIndicator (isSaved i) false (saveTimer i) (hideTimer i)
  else setIsSaved false
         (mkIndicator (isSaved i) false (Some SAVE_DELAY) (hideTimer i)).

(** One millisecond passes: an armed timer with one millisecond left
    fires, any other armed timer has one millisecond less. *)
Definition tick_hide (i : indicator) : indicator :=
  match hideTimer i with
  | None => i
  | Some (S (S r)) =>
      mkIndicator (isSaved i) (isFirstRender i) (saveTimer i) (Some (S r))
  | Some _ =>
      setIsSaved false
        (mkIndicator (isSaved i) (isFirstRender i) (saveTimer i) None)
  end.

Definition tick_save (i : indicator) : indicator :=
  match saveTimer i with
  | None => i
  | Some (S (S r)) =>
      mkIndicator (isSaved i) (isFirstRender i) (Some (S r)) (hideTimer i)
  | Some _ =>
      setIsSaved true
        (mkIndicator (isSaved i) (isFirstRender i) None (hideTimer i))
  end.

Definition tick (i : indicator) : indicator := tick_save (tick_hide i).

(** [n] milliseconds without a new document. *)
Definition quiet (n : nat) (i : indicator) : indicator := Nat.iter n tick i.

(** What the component goes through: the first render, then new documents
    and the passing of time in any order. *)
Inductive reachable : indicator -> Prop :=
| reach_mount : reachable (designChanged initial)
| reach_change (i : indicator) : reachable i -> reachable (designChanged i)
| reach_tick (i : indicator) : reachable i -> reachable (tick i).

(** The three shapes of the indicator once the first effect ran. *)
Inductive phase : indicator -> Prop :=
| phase_idle : phase (mkIndicator false false None None)
| phase_saving (r : nat) :
    r < SAVE_DELAY -> phase (mkIndicator false false (Some (S r)) None)
| phase_showing (r : nat) :
    r < HIDE_DELAY -> phase (mkIndicator true false None (Some (S r))).

(** A burst of edits: each gap is the time in milliseconds before the next
    new document. *)
Fixpoint burst (gaps : list nat) (i : indicator) : indicator :=
  match gaps with
  | [] => i
  | g :: rest => burst rest (designChanged (quiet g i))
  end.

End SaveIndicator.

(* ================================================================== *)
(** * The chat view and the image service *)
(* ================================================================== *)

Module Chat.
Import JSON.

(** [String.prototype.split(sep)] for a separator of one code unit. *)
Fixpoint split_acc (sep : ascii) (piece l : list ascii) : list (list ascii) :=
  match l with
  | [] => [piece]
  | c :: l' =>
      if Ascii.eqb c sep then piece :: split_acc sep [] l'
      else split_acc sep (piece ++ [c]) l'
  end.

Definition split_on (sep : ascii) (l : list ascii) : list (list ascii) :=
  split_acc sep [] l.

Definition newline : ascii := ascii_of_nat 10.

(** The paragraphs of a chat message: [msg.text.split(newline)]. *)
Definition paragraphs (msg : string) : list string :=
  map text (split_on newline (chars msg)).

(** [Array.prototype.join(sep)] *)
Fixpoint join_with (sep : ascii) (parts : list (list ascii)) : list ascii :=
  match parts with
  | [] => []
  | [p] => p
  | p :: rest => p ++ sep :: join_with sep rest
  end.

End Chat.

Module GeminiService.
Import JSON Chat.

Local Open Scope string_scope.

(** The data URL both image functions return for the base64 [data] of the
    first inline part. *)
Definition dataUrl (data : string) : string :=
  "data:image/png;base64," ++ data.

(** The loop over the parts of the first candidate: [parts] holds, for each
    part, the [data] of its [inlineData] when it has one; [None] is the
    error thrown when no part has. *)
Fixpoint firstImage (parts : list (option string)) : option string :=
  match parts with
  | [] => None
  | Some data :: _ => Some (dataUrl data)
  | None :: rest => firstImage rest
  end.

(** [base64Image.split(',')[1] || base64Image] of [editImage]. *)
Definition cleanBase64 (base64Image : string) : string :=
  match nth_error (split_on ","%char (chars base64Image)) 1 with
  | Some ((_ :: _) as piece) => text piece
  | _ => base64Image
  end.

End GeminiService.

(* ================================================================== *)
(** * Sample documents and payloads *)
(* ================================================================== *)

Module Samples.
Import JSON History.

Local Open Scope string_scope.

(** The default document with its last two keys written in the other
    order. *)
Definition reordered_default : value :=
  JObj
    [ ("primaryColor", JStr "#3b82f6");
      ("secondaryColor", JStr "#10b981");
      ("fontFamily", JStr "sans");
      ("borderRadius", JStr "md");
      ("layoutMode", JStr "landing");
      ("darkMode", JBool true);
      ("baseFontSize", JNum 16);
      ("headingText", JStr "Build Your **Next Idea**");
      ("subheadingText",
        JStr "A visual playground for developers and designers to conceptualize interfaces instantly.");
      ("bodyText",
        JStr "Automated styling and layout generation for rapid prototyping.");
      ("gridGap", JNum 24);
      ("gridColumns", JNum 3) ].

(** The default document after the grid slider was moved to four columns:
    [{ ...DEFAULT_DESIGN, gridColumns: 4 }]. *)
Definition four_columns : value :=
  JObj (spread (spread [] DEFAULT_DESIGN) (JObj [("gridColumns", JNum 4)])).

(** The default document after a longer heading was typed:
    [{ ...DEFAULT_DESIGN, headingText: ... }]. *)
Definition long_heading : value :=
  JObj (spread (spread [] DEFAULT_DESIGN)
          (JObj [("headingText",
                  JStr "Build Your **Next Idea** and ship it before lunch")])).

(** A stored object whose only key is not a field of the document. *)
Definition legacy_payload : string := stringify (JObj [("legacy", JNum 1)]).

(** Valid JSON that is not an object. *)
Definition array_payload : string := "[1]".

(** A stored text cut short. *)
Definition truncated_payload : string := "{".

End Samples.

(* ================================================================== *)
(** * Properties *)
(* ================================================================== *)

Import JSON History Playground.
Import Lifecycle Controls Preview.

(** Case analysis on the name [k] a lookup compares with the keys of a
    table. *)
Ltac by_name k :=
  repeat match goal with
         | |- context [String.eqb k ?name] =>
             destruct (String.eqb_spec k name) as [-> | ?]
         end.

(** ** Induction on values and structural comparison *)

Lemma value_induction (P : value -> Prop) :
  P JNull ->
  (forall b, P (JBool b)) ->
  (forall n, P (JNum n)) ->
  (forall s, P (JStr s)) ->
  (forall items, Forall P items -> P (JArr items)) ->
  (forall props, Forall (fun kv => P (snd kv)) props -> P (JObj props)) ->
  forall v, P v.
Proof.
  intros Hnull Hbool Hnum Hstr Harr Hobj.
  fix IH 1.
  intros [ | b | n | s | items | props ].
  - exact Hnull.
  - apply Hbool.
  - apply Hnum.
  - apply Hstr.
  - apply Harr.
    induction items as [ | v items IHitems ]; constructor.
    + apply IH.
    + exact IHitems.
  - apply Hobj.
    induction props as [ | [k v] props IHprops ]; constructor.
    + apply IH.
    + exact IHprops.
Qed.

Lemma value_eqb_eq (a b : value) : value_eqb a b = true <-> a = b.
Proof.
  revert b.
  induction a as [ | x | x | x | xs IHxs | ps IHps ] using value_induction;
    intros [ | y | y | y | ys | qs ]; simpl;
    try (split; [ discriminate | congruence ]); try tauto.
  - rewrite Bool.eqb_true_iff. split; congruence.
  - rewrite Z.eqb_eq. split; congruence.
  - rewrite String.eqb_eq. split; congruence.
  - revert ys.
    induction IHxs as [ | x xs Hx _ IH ]; intros [ | y ys ];
      try (split; [ discriminate | congruence ]); try tauto.
    rewrite andb_true_iff, Hx.
    specialize (IH ys).
    split.
    + intros [-> H]. apply IH in H. congruence.
    + intros H. injection H as -> H. split; [ reflexivity | ].
      apply IH. congruence.
  - revert qs.
    induction IHps as [ | [k x] ps Hx _ IH ]; intros [ | [k' y] qs ];
      try (split; [ discriminate | congruence ]); try tauto.
    simpl in Hx.
    rewrite !andb_true_iff, Hx, String.eqb_eq.
    specialize (IH qs).
    split.
    + intros [[-> ->] H]. apply IH in H. congruence.
    + intros H. injection H as -> -> H. repeat split.
      apply IH. congruence.
Qed.

Lemma values_eqb_eq (xs ys : list value) : values_eqb xs ys = true <-> xs = ys.
Proof.
  revert ys.
  induction xs as [ | x xs IH ]; intros [ | y ys ]; simpl;
    try (split; [ discriminate | congruence ]); try tauto.
  rewrite andb_true_iff, value_eqb_eq, IH.
  split; [ intros [-> ->]; reflexivity | intros H; injection H; auto ].
Qed.

Lemma history_eqb_eq (a b : history) : history_eqb a b = true <-> a = b.
Proof.
  unfold history_eqb.
  rewrite !andb_true_iff, !values_eqb_eq, value_eqb_eq.
  destruct a, b; simpl.
  split; [ intros [[-> ->] ->]; reflexivity | intros H; injection H; auto ].
Qed.

Lemma history_eqb_refl (h : history) : history_eqb h h = true.
Proof. apply history_eqb_eq. reflexivity. Qed.

(** ** Reading back what [stringify] wrote *)

Section Roundtrip.

Local Open Scope char_scope.

Lemma text_chars (s : string) : text (chars s) = s.
Proof. apply string_of_list_ascii_of_string. Qed.

Lemma chars_text (l : list ascii) : chars (text l) = l.
Proof. apply list_ascii_of_string_of_list_ascii. Qed.

Lemma parse_string_escape (c : ascii) (tl : list ascii) :
  parse_string (escape_char c ++ tl) = prepend c (parse_string tl).
Proof.
  destruct c as [[] [] [] [] [] [] [] []]; reflexivity.
Qed.

Lemma parse_string_quote (cs rest : list ascii) :
  parse_string (flat_map escape_char cs ++ dquote :: rest) = Parsed cs rest.
Proof.
  induction cs as [ | c cs IH ]; simpl.
  - reflexivity.
  - rewrite <- app_assoc, parse_string_escape, IH. reflexivity.
Qed.

Lemma quote_eq (s : string) (rest : list ascii) :
  quote s ++ rest = dquote :: flat_map escape_char (chars s) ++ dquote :: rest.
Proof.
  unfold quote. simpl. rewrite <- app_assoc. reflexivity.
Qed.

Lemma digit_of_closes (c : ascii) (rest : list ascii) :
  closes (c :: rest) -> digit_of c = None.
Proof.
  simpl. intros [-> | [-> | ->]]; reflexivity.
Qed.

Lemma read_digits_digits (d : uint) (rest : list ascii) :
  closes rest -> read_digits (digits d ++ rest) = (d, rest).
Proof.
  intros Hrest.
  induction d as [ | d IH | d IH | d IH | d IH | d IH | d IH | d IH | d IH
                   | d IH | d IH ]; simpl;
    try (unfold digit_of; simpl; rewrite IH; reflexivity).
  destruct rest as [ | c rest ]; [ reflexivity | ].
  simpl. rewrite (digit_of_closes c rest Hrest). reflexivity.
Qed.

Lemma integer_closes (n : Z) (rest : list ascii) :
  closes rest -> integer n rest = Parsed n rest.
Proof.
  destruct rest as [ | c rest ]; [ reflexivity | ].
  simpl. intros [-> | [-> | ->]]; reflexivity.
Qed.

Lemma to_uint_head (p : positive) :
  exists c tl,
    digits (Pos.to_uint p) = c :: tl
    /\ Ascii.eqb c "0" = false /\ Ascii.eqb c "-" = false
    /\ digit_of c <> None.
Proof.
  pose proof (DecimalPos.Unsigned.to_of (Pos.to_uint p)) as Hnorm.
  rewrite DecimalPos.Unsigned.of_to in Hnorm. simpl in Hnorm.
  pose proof (DecimalPos.Unsigned.to_uint_nonzero p) as Hnz.
  destruct (Pos.to_uint p) as [ | d | d | d | d | d | d | d | d | d | d ] eqn:E;
    try (do 2 eexists; split; [ reflexivity | repeat split; discriminate ]).
  - exfalso. revert Hnorm. unfold unorm. simpl. discriminate.
  - exfalso. rewrite DecimalFacts.unorm_D0 in Hnorm.
    unfold unorm in Hnorm.
    destruct (nzhead d) eqn:Hd;
      try (symmetry in Hnorm; rewrite <- Hd in Hnorm;
           exact (DecimalFacts.nzhead_nonzero _ _ Hnorm)).
    apply Hnz. unfold zero. rewrite Hnorm. reflexivity.
Qed.

Lemma parse_number_print (n : Z) (rest : list ascii) :
  closes rest -> parse_number (print_number n ++ rest) = Parsed n rest.
Proof.
  intros Hrest. unfold print_number.
  destruct n as [ | p | p ]; simpl.
  - unfold parse_number, parse_unsigned. simpl.
    apply integer_closes. exact Hrest.
  - destruct (to_uint_head p) as (c & tl & E & H0 & Hm & Hd).
    pose proof (read_digits_digits (Pos.to_uint p) rest Hrest) as Hread.
    rewrite E in *. simpl app in *.
    unfold parse_number. rewrite Hm.
    unfold parse_unsigned. rewrite H0.
    destruct (digit_of c); [ | contradiction ].
    rewrite Hread, (integer_closes _ rest Hrest). unfold Z.of_uint.
    rewrite DecimalPos.Unsigned.of_to. reflexivity.
  - destruct (to_uint_head p) as (c & tl & E & H0 & Hm & Hd).
    pose proof (read_digits_digits (Pos.to_uint p) rest Hrest) as Hread.
    rewrite E in *. simpl app in *.
    unfold parse_unsigned. rewrite H0.
    destruct (digit_of c); [ | contradiction ].
    rewrite Hread, (integer_closes _ rest Hrest). unfold Z.of_uint.
    rewrite DecimalPos.Unsigned.of_to. reflexivity.
Qed.

Lemma size_pos (v : value) : 1 <= size v.
Proof. destruct v; simpl; lia. Qed.

Lemma skip_ws_keep (c : ascii) (l : list ascii) :
  is_ws c = false -> skip_ws (c :: l) = c :: l.
Proof. intros H. simpl. rewrite H. reflexivity. Qed.

(** One step of each parser, spelled out. *)
Lemma parse_value_number (n : nat) (c : ascii) (r : list ascii) :
  c = "-" \/ digit_of c <> None ->
  parse_value (S n) (c :: r)
  = and_then (parse_number (c :: r)) (fun z rest => Parsed (JNum z) rest).
Proof.
  destruct c as [[] [] [] [] [] [] [] []];
    intros [H | H]; try discriminate H;
    try (exfalso; apply H; reflexivity); reflexivity.
Qed.

Lemma parse_value_string (n : nat) (r : list ascii) :
  parse_value (S n) (dquote :: r)
  = and_then (parse_string r) (fun s rest => Parsed (JStr (text s)) rest).
Proof. reflexivity. Qed.

Lemma parse_value_array (n : nat) (c : ascii) (r : list ascii) :
  is_ws c = false -> Ascii.eqb c "]" = false ->
  parse_value (S n) ("[" :: c :: r)
  = and_then (parse_items n (c :: r)) (fun vs rest => Parsed (JArr vs) rest).
Proof.
  intros Hws Hc.
  change (parse_value (S n) ("[" :: c :: r))
    with (match skip_ws (c :: r) with
          | [] => SyntaxError
          | c' :: r' =>
              if Ascii.eqb c' "]" then Parsed (JArr []) r'
              else and_then (parse_items n (c' :: r'))
                     (fun vs rest => Parsed (JArr vs) rest)
          end).
  rewrite (skip_ws_keep c r Hws), Hc. reflexivity.
Qed.

Lemma parse_value_object (n : nat) (r : list ascii) :
  parse_value (S n) ("{" :: dquote :: r)
  = and_then (parse_members n (dquote :: r))
      (fun ms rest => Parsed (JObj ms) rest).
Proof. reflexivity. Qed.

Lemma parse_items_step (n : nat) (l : list ascii) :
  parse_items (S n) l
  = and_then (parse_value n l)
      (fun v r =>
         match skip_ws r with
         | [] => SyntaxError
         | c :: r' =>
             if Ascii.eqb c "," then prepend v (parse_items n r')
             else if Ascii.eqb c "]" then Parsed [v] r'
             else SyntaxError
         end).
Proof. reflexivity. Qed.

Lemma parse_members_step (n : nat) (r : list ascii) :
  parse_members (S n) (dquote :: r)
  = and_then (parse_string r)
      (fun k r1 =>
         match skip_ws r1 with
         | [] => SyntaxError
         | c1 :: r2 =>
             if Ascii.eqb c1 ":" then
               and_then (parse_value n r2)
                 (fun v r3 =>
                    match skip_ws r3 with
                    | [] => SyntaxError
                    | c :: r4 =>
                        if Ascii.eqb c "," then
                          prepend (text k, v) (parse_members n r4)
                        else if Ascii.eqb c "}" then Parsed [(text k, v)] r4
                        else SyntaxError
                    end)
             else SyntaxError
         end).
Proof. reflexivity. Qed.

Lemma print_number_head (z : Z) :
  exists c tl, print_number z = c :: tl /\ (c = "-" \/ digit_of c <> None).
Proof.
  unfold print_number.
  destruct z as [ | p | p ]; simpl.
  - do 2 eexists. split; [ reflexivity | right; discriminate ].
  - destruct (to_uint_head p) as (c & tl & E & _ & _ & Hd). eauto.
  - do 2 eexists. split; [ reflexivity | left; reflexivity ].
Qed.

(** What a printed value starts with. *)
Lemma print_head (v : value) :
  exists c tl,
    print v = c :: tl /\ is_ws c = false /\ Ascii.eqb c "]" = false.
Proof.
  destruct v as [ | [ | ] | z | s | items | props ];
    try (do 2 eexists; split; [ reflexivity | split; reflexivity ]).
  destruct (print_number_head z) as (c & tl & E & H).
  exists c, tl. split; [ exact E | ].
  destruct c as [[] [] [] [] [] [] [] []]; destruct H as [H | H];
    try discriminate H; try (exfalso; apply H; reflexivity);
    split; reflexivity.
Qed.

Lemma join_head (c : ascii) (tl : list ascii) (ps : list (list ascii)) :
  exists tl', join ((c :: tl) :: ps) = c :: tl'.
Proof. destruct ps; simpl; eauto. Qed.

Lemma parse_print (n : nat) :
  (forall v rest,
      size v <= n -> closes rest ->
      parse_value n (print v ++ rest) = Parsed v rest)
  /\ (forall v vs rest,
      items_size (v :: vs) <= n ->
      parse_items n (join (map print (v :: vs)) ++ "]" :: rest)
      = Parsed (v :: vs) rest)
  /\ (forall kv ps rest,
      members_size (kv :: ps) <= n ->
      parse_members n (join (map (print_member print) (kv :: ps)) ++ "}" :: rest)
      = Parsed (kv :: ps) rest).
Proof.
  induction n as [ | n (IHv & IHi & IHm) ].
  - repeat split.
    + intros v rest H. pose proof (size_pos v). lia.
    + intros v vs rest H. unfold items_size in H. simpl in H. lia.
    + intros kv ps rest H. unfold members_size in H. simpl in H. lia.
  - repeat split.
    + intros [ | [ | ] | z | s | items | props ] rest Hsize Hrest;
        try reflexivity.
      * destruct (print_number_head z) as (c & tl & E & H).
        change (print (JNum z)) with (print_number z).
        pose proof (parse_number_print z rest Hrest) as Hnum.
        rewrite E in *. simpl app in *.
        rewrite (parse_value_number n c _ H), Hnum. reflexivity.
      * change (print (JStr s)) with (quote s).
        rewrite quote_eq, parse_value_string, parse_string_quote.
        cbn [and_then]. rewrite text_chars. reflexivity.
      * destruct items as [ | v vs ]; [ reflexivity | ].
        assert (Hsz : items_size (v :: vs) <= n)
          by (unfold items_size; simpl in *; lia).
        change (print (JArr (v :: vs)) ++ rest)
          with ("[" :: (join (map print (v :: vs)) ++ ["]"]) ++ rest).
        rewrite <- app_assoc. simpl app at 2.
        pose proof (IHi v vs rest Hsz) as Hitems.
        destruct (print_head v) as (c & tl & E & Hws & Hc).
        destruct (join_head c tl (map print vs)) as [tl' Hj].
        change (join (map print (v :: vs)))
          with (join (print v :: map print vs)) in *.
        rewrite E, Hj in *. simpl app in *.
        rewrite (parse_value_array n c _ Hws Hc), Hitems. reflexivity.
      * destruct props as [ | kv ps ]; [ reflexivity | ].
        assert (Hsz : members_size (kv :: ps) <= n)
          by (unfold members_size; simpl in *; lia).
        change (print (JObj (kv :: ps)) ++ rest)
          with ("{" :: (join (map (print_member print) (kv :: ps)) ++ ["}"])
                       ++ rest).
        rewrite <- app_assoc. simpl app at 2.
        pose proof (IHm kv ps rest Hsz) as Hmembers.
        destruct (join_head dquote
                    (flat_map escape_char (chars (fst kv))
                       ++ dquote :: ":" :: print (snd kv))
                    (map (print_member print) ps)) as [tl' Hj].
        change (join (map (print_member print) (kv :: ps)))
          with (join ((quote (fst kv) ++ ":" :: print (snd kv))
                        :: map (print_member print) ps)) in *.
        rewrite quote_eq, Hj in *. simpl app in *.
        rewrite parse_value_object, Hmembers. reflexivity.
    + intros v vs rest Hsize.
      unfold items_size in Hsize. simpl in Hsize.
      fold (items_size vs) in Hsize.
      rewrite parse_items_step.
      destruct vs as [ | v' vs' ].
      * change (join (map print [v])) with (print v).
        rewrite (IHv v ("]" :: rest)); [ reflexivity | lia | simpl; auto ].
      * pose proof (IHi v' vs' rest) as Hi.
        change (join (map print (v :: v' :: vs')))
          with (print v ++ "," :: join (map print (v' :: vs'))).
        set (J := join (map print (v' :: vs'))) in *.
        rewrite <- app_assoc.
        change (("," :: J) ++ "]" :: rest) with ("," :: J ++ "]" :: rest).
        rewrite (IHv v); [ | lia | simpl; auto ].
        cbn [and_then]. rewrite skip_ws_keep by reflexivity.
        cbv beta iota. rewrite Ascii.eqb_refl, Hi; [ reflexivity | lia ].
    + intros [k v] ps rest Hsize.
      unfold members_size in Hsize. simpl in Hsize.
      fold (members_size ps) in Hsize.
      destruct ps as [ | kv' ps' ].
      * change (join (map (print_member print) [(k, v)]))
          with (quote k ++ ":" :: print v).
        rewrite <- app_assoc, quote_eq, parse_members_step, parse_string_quote.
        change ((":" :: print v) ++ "}" :: rest)
          with (":" :: print v ++ "}" :: rest).
        cbn [and_then]. rewrite skip_ws_keep by reflexivity.
        cbv beta iota. rewrite Ascii.eqb_refl.
        rewrite (IHv v ("}" :: rest)); [ | lia | simpl; auto ].
        cbn [and_then]. rewrite text_chars. reflexivity.
      * pose proof (IHm kv' ps' rest) as Hm.
        change (join (map (print_member print) ((k, v) :: kv' :: ps')))
          with ((quote k ++ ":" :: print v)
                  ++ "," :: join (map (print_member print) (kv' :: ps'))).
        set (J := join (map (print_member print) (kv' :: ps'))) in *.
        rewrite <- !app_assoc, quote_eq, parse_members_step, parse_string_quote.
        change ((":" :: print v) ++ ("," :: J) ++ "}" :: rest)
          with (":" :: print v ++ "," :: J ++ "}" :: rest).
        cbn [and_then]. rewrite skip_ws_keep by reflexivity.
        cbv beta iota. rewrite Ascii.eqb_refl.
        rewrite (IHv v); [ | lia | simpl; auto ].
        cbn [and_then]. rewrite skip_ws_keep by reflexivity.
        cbv beta iota. rewrite Ascii.eqb_refl, text_chars, Hm;
          [ reflexivity | lia ].
Qed.

Lemma join_length (ps : list (list ascii)) :
  list_sum (map (@List.length ascii) ps) + List.length ps
  <= List.length (join ps) + 1.
Proof.
  induction ps as [ | p [ | q r ] IH ].
  - simpl. lia.
  - simpl. lia.
  - change (join (p :: q :: r)) with (p ++ "," :: join (q :: r)).
    rewrite length_app.
    change (List.length ("," :: join (q :: r)))
      with (S (List.length (join (q :: r)))).
    change (list_sum (map (@List.length ascii) (p :: q :: r)))
      with (List.length p + list_sum (map (@List.length ascii) (q :: r))).
    change (List.length (p :: q :: r)) with (S (List.length (q :: r))).
    lia.
Qed.

Lemma size_print (v : value) : size v <= List.length (print v).
Proof.
  induction v as [ | b | z | s | items IH | props IH ] using value_induction.
  - simpl. lia.
  - destruct b; simpl; lia.
  - destruct (print_number_head z) as (c & tl & E & _).
    change (print (JNum z)) with (print_number z). rewrite E. simpl. lia.
  - change (print (JStr s)) with (quote s). unfold quote.
    rewrite length_app. simpl. lia.
  - change (print (JArr items))
      with (("[" :: join (map print items)) ++ ["]"]).
    rewrite length_app. simpl List.length.
    pose proof (join_length (map print items)) as Hj.
    rewrite length_map in Hj.
    assert (Hs : items_size items
                 <= list_sum (map (@List.length ascii) (map print items))
                    + List.length items).
    { clear Hj. unfold items_size.
      induction IH as [ | v vs Hv _ IHvs ]; simpl; lia. }
    change (size (JArr items)) with (S (items_size items)). lia.
  - change (print (JObj props))
      with (("{" :: join (map (print_member print) props)) ++ ["}"]).
    rewrite length_app. simpl List.length.
    pose proof (join_length (map (print_member print) props)) as Hj.
    rewrite length_map in Hj.
    assert (Hs : members_size props
                 <= list_sum (map (@List.length ascii)
                                (map (print_member print) props))
                    + List.length props).
    { clear Hj. unfold members_size.
      induction IH as [ | [k v] ps Hv _ IHps ]; [ simpl; lia | ].
      cbn [map list_sum fold_right List.length snd] in *.
      unfold print_member at 1. rewrite length_app.
      cbn [List.length snd]. unfold list_sum in *. lia. }
    change (size (JObj props)) with (S (members_size props)). lia.
Qed.

(** Reading the printed form of a value gives the value back, with
    nothing left over. *)
Lemma parse_value_print (v : value) (n : nat) :
  List.length (print v) <= n -> parse_value n (print v) = Parsed v [].
Proof.
  intros Hn.
  rewrite <- (app_nil_r (print v)) at 1.
  apply (proj1 (parse_print n)).
  - pose proof (size_print v). lia.
  - exact I.
Qed.

Lemma print_inj (a b : value) : print a = print b -> a = b.
Proof.
  intros H.
  pose proof (parse_value_print a (List.length (print a)) (le_n _)) as Ha.
  assert (Hb : parse_value (List.length (print a)) (print b) = Parsed b [])
    by (apply parse_value_print; rewrite H; apply le_n).
  rewrite <- H in Hb. congruence.
Qed.

(** [JSON.stringify] is one-to-one: two documents have the same text
    exactly when they are the same value, keys in the same order. *)
Lemma stringify_inj (a b : value) : stringify a = stringify b <-> a = b.
Proof.
  split; [ | congruence ].
  unfold stringify. intros H.
  apply print_inj.
  rewrite <- (chars_text (print a)), <- (chars_text (print b)), H.
  reflexivity.
Qed.

Lemma stringify_eqb (a b : value) :
  String.eqb (stringify a) (stringify b) = value_eqb a b.
Proof.
  destruct (value_eqb a b) eqn:E.
  - apply value_eqb_eq in E. subst. apply String.eqb_refl.
  - apply String.eqb_neq. intros H. apply stringify_inj in H.
    apply value_eqb_eq in H. congruence.
Qed.



End Roundtrip.

(** ** Property lists *)

Section Objects.

Implicit Types (k : string) (v : value) (o ps : list (string * value)).

Lemma lookup_none k o : ~ In k (keys o) <-> lookup k o = None.
Proof.
  induction o as [ | [k' v'] o IH ]; simpl.
  - tauto.
  - destruct (String.eqb_spec k k') as [-> | Hne].
    + split; [ intros H; exfalso; apply H; auto | discriminate ].
    + rewrite <- IH. split.
      * intros H Hin. apply H. auto.
      * intros H [Heq | Hin]; [ congruence | auto ].
Qed.

Lemma lookup_app k o ps :
  lookup k (o ++ ps)
  = match lookup k o with Some v => Some v | None => lookup k ps end.
Proof.
  induction o as [ | [k' v'] o IH ]; simpl; [ reflexivity | ].
  destruct (String.eqb k k'); [ reflexivity | exact IH ].
Qed.

Lemma lookup_replace k' k v o :
  lookup k' (replace_prop k v o)
  = if String.eqb k' k
    then match lookup k o with Some _ => Some v | None => None end
    else lookup k' o.
Proof.
  induction o as [ | [k0 v0] o IH ]; simpl.
  - destruct (String.eqb k' k); reflexivity.
  - destruct (String.eqb_spec k k0) as [-> | Hne]; simpl.
    + destruct (String.eqb k' k0); reflexivity.
    + rewrite IH.
      destruct (String.eqb_spec k' k0) as [-> | Hne'].
      * apply String.eqb_neq in Hne. rewrite String.eqb_sym, Hne. reflexivity.
      * reflexivity.
Qed.

Lemma insert_index_split (i : N) k v o :
  exists o1 o2, o = o1 ++ o2 /\ insert_index i k v o = o1 ++ (k, v) :: o2.
Proof.
  induction o as [ | [k0 v0] o (o1 & o2 & E & IH) ]; simpl.
  - exists [], []. split; reflexivity.
  - destruct (array_index k0) as [j | ].
    + destruct (N.ltb j i).
      * exists ((k0, v0) :: o1), o2. rewrite IH, E at 1. split; reflexivity.
      * exists [], ((k0, v0) :: o). split; reflexivity.
    + exists [], ((k0, v0) :: o). split; reflexivity.
Qed.

Lemma lookup_middle k' k v o1 o2 :
  lookup k (o1 ++ o2) = None ->
  lookup k' (o1 ++ (k, v) :: o2)
  = if String.eqb k' k then Some v else lookup k' (o1 ++ o2).
Proof.
  intros Hk. rewrite !lookup_app. rewrite lookup_app in Hk. simpl.
  destruct (String.eqb_spec k' k) as [-> | Hne].
  - destruct (lookup k o1); [ discriminate | reflexivity ].
  - reflexivity.
Qed.

(** Reading a property after [CreateDataProperty]. *)
Lemma lookup_define k' k v o :
  lookup k' (define_prop k v o)
  = if String.eqb k' k then Some v else lookup k' o.
Proof.
  unfold define_prop, has_key.
  destruct (lookup k o) as [w | ] eqn:Hk.
  - rewrite lookup_replace, Hk. reflexivity.
  - destruct (array_index k) as [i | ].
    + destruct (insert_index_split i k v o) as (o1 & o2 & E & ->).
      subst o. apply lookup_middle. exact Hk.
    + rewrite lookup_app. simpl.
      destruct (String.eqb_spec k' k) as [-> | Hne].
      * rewrite Hk. reflexivity.
      * destruct (lookup k' o); reflexivity.
Qed.

Lemma keys_replace k v o : keys (replace_prop k v o) = keys o.
Proof.
  unfold keys.
  induction o as [ | [k0 v0] o IH ]; simpl; [ reflexivity | ].
  destruct (String.eqb k k0); simpl; [ reflexivity | ].
  rewrite IH. reflexivity.
Qed.

Lemma NoDup_middle (k : string) (l1 l2 : list string) :
  NoDup (l1 ++ l2) -> ~ In k (l1 ++ l2) -> NoDup (l1 ++ k :: l2).
Proof.
  intros Hnd Hin.
  apply (proj2 (NoDup_Add (Add_app k l1 l2))). split; assumption.
Qed.

Lemma define_prop_NoDup k v o : NoDup (keys o) -> NoDup (keys (define_prop k v o)).
Proof.
  intros Hnd. unfold define_prop, has_key.
  destruct (lookup k o) as [w | ] eqn:Hk.
  - rewrite keys_replace. exact Hnd.
  - apply lookup_none in Hk.
    destruct (array_index k) as [i | ].
    + destruct (insert_index_split i k v o) as (o1 & o2 & E & ->).
      subst o. unfold keys in *. rewrite map_app in *. simpl.
      apply NoDup_middle; assumption.
    + unfold keys in *. rewrite map_app. simpl.
      apply NoDup_middle; rewrite app_nil_r; assumption.
Qed.

Lemma define_all_NoDup ps o : NoDup (keys o) -> NoDup (keys (define_all ps o)).
Proof.
  revert o. unfold define_all.
  induction ps as [ | [k v] ps IH ]; intros o Hnd; simpl.
  - exact Hnd.
  - apply IH. apply define_prop_NoDup. exact Hnd.
Qed.

(** Reading a property after a spread: the last operand that has the key
    decides. *)
Lemma lookup_define_all k ps o :
  NoDup (keys ps) ->
  lookup k (define_all ps o)
  = match lookup k ps with Some v => Some v | None => lookup k o end.
Proof.
  revert o. unfold define_all.
  induction ps as [ | [k0 v0] ps IH ]; intros o Hnd; simpl.
  - reflexivity.
  - simpl in Hnd. apply NoDup_cons_iff in Hnd as [Hk0 Hnd].
    rewrite (IH _ Hnd), lookup_define.
    destruct (String.eqb_spec k k0) as [-> | Hne].
    + apply lookup_none in Hk0. rewrite Hk0. reflexivity.
    + reflexivity.
Qed.

Lemma distinct_NoDup (ks : list string) : distinct ks = true <-> NoDup ks.
Proof.
  induction ks as [ | k ks IH ]; simpl.
  - split; [ constructor | reflexivity ].
  - rewrite andb_true_iff, negb_true_iff, IH, NoDup_cons_iff.
    assert (Hin : existsb (String.eqb k) ks = false <-> ~ In k ks).
    { rewrite <- not_true_iff_false, existsb_exists.
      split; intros H Hx.
      - apply H. exists k. split; [ exact Hx | apply String.eqb_refl ].
      - destruct Hx as (x & Hx & E). apply String.eqb_eq in E. subst.
        contradiction. }
    rewrite Hin. tauto.
Qed.

Lemma define_all_plain ps o :
  NoDup (keys (o ++ ps)) -> forallb plain_key (keys ps) = true ->
  define_all ps o = o ++ ps.
Proof.
  revert o. unfold define_all.
  induction ps as [ | [k v] ps IH ]; intros o Hnd Hplain; simpl.
  - rewrite app_nil_r. reflexivity.
  - simpl in Hplain. apply andb_true_iff in Hplain as [Hk Hplain].
    assert (Hdef : define_prop k v o = o ++ [(k, v)]).
    { unfold define_prop, has_key.
      assert (Hnone : lookup k o = None).
      { apply lookup_none. unfold keys in Hnd. rewrite map_app in Hnd.
        simpl in Hnd. apply NoDup_remove_2 in Hnd.
        intros Hin. apply Hnd. apply in_or_app. left. exact Hin. }
      rewrite Hnone. unfold plain_key in Hk.
      destruct (array_index k); [ discriminate | reflexivity ]. }
    rewrite Hdef, IH.
    + rewrite <- app_assoc. reflexivity.
    + rewrite <- app_assoc. exact Hnd.
    + exact Hplain.
Qed.


End Objects.

(** ** Undo and redo *)

Lemma undo_empty (p : value) (f : list value) :
  undo (mkHistory [] p f) = mkHistory [] p f.
Proof. reflexivity. Qed.

Lemma undo_snoc (ps : list value) (q p : value) (f : list value) :
  undo (mkHistory (ps ++ [q]) p f) = mkHistory ps q (p :: f).
Proof.
  unfold undo. simpl.
  rewrite length_app. simpl.
  replace (List.length ps + 1 - 1) with (List.length ps) by lia.
  replace (List.length ps + 1 =? 0) with false
    by (symmetry; apply Nat.eqb_neq; lia).
  rewrite nth_error_app2 by lia.
  rewrite Nat.sub_diag. simpl.
  rewrite firstn_app, Nat.sub_diag, firstn_all. simpl.
  rewrite app_nil_r. reflexivity.
Qed.

Lemma redo_empty (ps : list value) (p : value) :
  redo (mkHistory ps p []) = mkHistory ps p [].
Proof. reflexivity. Qed.

Lemma redo_cons (ps : list value) (p n : value) (f : list value) :
  redo (mkHistory ps p (n :: f)) = mkHistory (ps ++ [p]) n f.
Proof. reflexivity. Qed.

Lemma snoc_cases {A : Type} (l : list A) :
  l = [] \/ exists l' x, l = l' ++ [x].
Proof.
  destruct l as [ | a l ]; [ left; reflexivity | right ].
  destruct (exists_last (l := a :: l)) as [l' [x ->]]; [ discriminate | eauto ].
Qed.

Lemma undo_timeline (h : history) : timeline (undo h) = timeline h.
Proof.
  destruct h as [ps p f].
  destruct (snoc_cases ps) as [-> | [ps' [q ->]]].
  - reflexivity.
  - rewrite undo_snoc. unfold timeline. simpl.
    rewrite <- app_assoc. reflexivity.
Qed.

Lemma redo_timeline (h : history) : timeline (redo h) = timeline h.
Proof.
  destruct h as [ps p [ | n f]].
  - reflexivity.
  - rewrite redo_cons. unfold timeline. simpl.
    rewrite <- app_assoc. reflexivity.
Qed.

Lemma undo_fixed (h : history) : undo h = h <-> past h = [].
Proof.
  destruct h as [ps p f]. simpl.
  destruct (snoc_cases ps) as [-> | [ps' [q ->]]].
  - split; reflexivity.
  - rewrite undo_snoc. split; intros H.
    + injection H as H _ _.
      apply (f_equal (@List.length value)) in H.
      rewrite length_app in H. simpl in H. lia.
    + destruct ps'; discriminate.
Qed.

Lemma redo_fixed (h : history) : redo h = h <-> future h = [].
Proof.
  destruct h as [ps p [ | n f]]; simpl.
  - split; reflexivity.
  - rewrite redo_cons. split; intros H; [ | discriminate ].
    injection H as H _ _.
    apply (f_equal (@List.length value)) in H.
    rewrite length_app in H. simpl in H. lia.
Qed.

Lemma iter_fixed {A : Type} (f : A -> A) (x : A) (n : nat) :
  f x = x -> Nat.iter n f x = x.
Proof.
  intros H. induction n as [ | n IH ]; simpl; [ reflexivity | ].
  rewrite IH. exact H.
Qed.

Lemma setHistory_fixed (f : history -> history) (s : session) :
  f (hist s) = hist s -> setHistory f s = s.
Proof.
  intros H. unfold setHistory. rewrite H, history_eqb_refl. reflexivity.
Qed.

(** ** The equality gate of [setState] *)

Lemma setState_same (u : SetStateAction) (h : history) :
  resolve u (present h) = present h -> setState u h = h.
Proof.
  intros H. unfold setState. rewrite H, String.eqb_refl. reflexivity.
Qed.

Lemma setState_push (u : SetStateAction) (h : history) :
  resolve u (present h) <> present h ->
  setState u h = mkHistory (past h ++ [present h]) (resolve u (present h)) [].
Proof.
  intros H. unfold setState.
  rewrite stringify_eqb.
  destruct (value_eqb (resolve u (present h)) (present h)) eqn:E;
    [ apply value_eqb_eq in E; contradiction | reflexivity ].
Qed.

Lemma value_eq_cases (a b : value) : a = b \/ a <> b.
Proof.
  destruct (value_eqb a b) eqn:E.
  - left. apply value_eqb_eq. exact E.
  - right. intros H. apply value_eqb_eq in H. congruence.
Qed.

Lemma snoc_not_self {A : Type} (l : list A) (x : A) : l ++ [x] <> l.
Proof.
  intros H. apply (f_equal (@List.length A)) in H.
  rewrite length_app in H. simpl in H. lia.
Qed.

Lemma setState_fixed (u : SetStateAction) (h : history) :
  setState u h = h <-> resolve u (present h) = present h.
Proof.
  split; [ | apply setState_same ].
  intros H.
  destruct (value_eq_cases (resolve u (present h)) (present h)) as [E | E];
    [ exact E | ].
  rewrite (setState_push u h E) in H.
  apply (f_equal past) in H. simpl in H.
  exfalso. exact (snoc_not_self _ _ H).
Qed.

Lemma present_setState (u : SetStateAction) (h : history) :
  present (setState u h) = resolve u (present h).
Proof.
  destruct (value_eq_cases (resolve u (present h)) (present h)) as [E | E].
  - rewrite (setState_same u h E). symmetry. exact E.
  - rewrite (setState_push u h E). reflexivity.
Qed.

(** ** Reachable histories

    In a history the hook can reach, neighbouring documents differ: the
    gate of [setState] lets no document follow itself.  An undo or a redo
    that acts therefore changes [present], and the effect that persists it
    runs. *)

Lemma steady_app (l : list value) (a b : value) :
  steady (l ++ [a]) -> a <> b -> steady (l ++ [a; b]).
Proof.
  intros Hl Hab.
  induction l as [ | x [ | y l ] IH ].
  - simpl. auto.
  - simpl in *. tauto.
  - change (x <> y /\ steady ((y :: l) ++ [a; b])).
    change (x <> y /\ steady ((y :: l) ++ [a])) in Hl.
    split; [ apply Hl | apply IH, Hl ].
Qed.

Lemma steady_prefix (l r : list value) : steady (l ++ r) -> steady l.
Proof.
  induction l as [ | x [ | y l ] IH ]; intros H.
  - exact I.
  - exact I.
  - change (x <> y /\ steady ((y :: l) ++ r)) in H.
    change (x <> y /\ steady (y :: l)).
    split; [ apply H | apply IH, H ].
Qed.

Lemma reachable_steady (D : value) (stored : option string) (h : history) :
  reachable D stored h -> steady (timeline h).
Proof.
  induction 1 as [ | u h _ IH | h _ IH | h _ IH ].
  - unfold init.
    destruct stored as [ [ | c s ] | ]; try exact I.
    destruct (parse (String c s)); exact I.
  - destruct (value_eq_cases (resolve u (present h)) (present h)) as [E | E].
    + rewrite (setState_same u h E). exact IH.
    + rewrite (setState_push u h E). unfold timeline in *. simpl.
      rewrite <- app_assoc. simpl.
      apply steady_app; [ | congruence ].
      apply (steady_prefix _ (future h)).
      rewrite <- app_assoc. exact IH.
  - rewrite undo_timeline. exact IH.
  - rewrite redo_timeline. exact IH.
Qed.

Lemma steady_middle (l r : list value) (a b : value) :
  steady (l ++ a :: b :: r) -> a <> b.
Proof.
  induction l as [ | x [ | y l ] IH ]; intros H.
  - apply H.
  - apply H.
  - apply IH. apply H.
Qed.

(** On a reachable history, an undo or a redo that acts is persisted. *)
Lemma setHistory_persists (D : value) (stored : option string) (s : session) :
  reachable D stored (hist s) ->
  (past (hist s) <> [] -> setHistory undo s = persist (undo (hist s)) s)
  /\ (future (hist s) <> [] -> setHistory redo s = persist (redo (hist s)) s).
Proof.
  intros Hreach. apply reachable_steady in Hreach.
  destruct s as [[ps p f] sl w]. simpl in *.
  split; intros Hne; unfold setHistory; simpl hist.
  - destruct (snoc_cases ps) as [-> | [ps' [q ->]]]; [ contradiction | ].
    rewrite undo_snoc.
    assert (Hqp : q <> p).
    { unfold timeline in Hreach. simpl in Hreach.
      rewrite <- app_assoc in Hreach. exact (steady_middle _ _ _ _ Hreach). }
    replace (history_eqb _ _) with false.
    + simpl. replace (value_eqb q p) with false; [ reflexivity | ].
      symmetry. apply not_true_iff_false. intros E.
      apply value_eqb_eq in E. contradiction.
    + symmetry. apply not_true_iff_false. intros E.
      apply history_eqb_eq in E. injection E as E _ _.
      symmetry in E. exact (snoc_not_self _ _ E).
  - destruct f as [ | n f ]; [ contradiction | ].
    rewrite redo_cons.
    assert (Hpn : p <> n).
    { unfold timeline in Hreach. simpl in Hreach.
      exact (steady_middle _ _ _ _ Hreach). }
    replace (history_eqb _ _) with false.
    + simpl. replace (value_eqb n p) with false; [ reflexivity | ].
      symmetry. apply not_true_iff_false. intros E.
      apply value_eqb_eq in E. congruence.
    + symmetry. apply not_true_iff_false. intros E.
      apply history_eqb_eq in E. injection E as E _ _.
      exact (snoc_not_self _ _ E).
Qed.

(** C1, as the code has it.  [setState] compares the texts
    [JSON.stringify] gives for the new and the current document, and two
    documents have the same text exactly when they are the same value with
    the keys in the same order.  When they are, the history stays as it is
    and nothing is written to storage; when they are not, the current
    document is appended to [past], the new one becomes [present], [future]
    is emptied and the new document is written to storage. *)
Theorem setState_gate (u : SetStateAction) (s : session) :
  let h := hist s in
  let v := resolve u (present h) in
  (stringify v = stringify (present h) <-> v = present h)
  /\ (v = present h ->
       setState u h = h /\ setHistory (setState u) s = s)
  /\ (v <> present h ->
       setState u h = mkHistory (past h ++ [present h]) v []
       /\ setHistory (setState u) s
          = mkSession (mkHistory (past h ++ [present h]) v [])
              (Some (stringify v)) (stringify v :: writes s)).
Proof.
  intros h v. split; [ apply stringify_inj | split ].
  - intros E. split.
    + apply setState_same. exact E.
    + apply setHistory_fixed. apply setState_same. exact E.
  - intros E. split.
    + apply setState_push. exact E.
    + unfold setHistory. fold h. rewrite (setState_push u h E). fold v.
      assert (Hh : history_eqb (mkHistory (past h ++ [present h]) v []) h = false).
      { apply not_true_iff_false. intros H. apply history_eqb_eq in H.
        apply (f_equal past) in H. simpl in H. exact (snoc_not_self _ _ H). }
      assert (Hv : value_eqb v (present h) = false).
      { apply not_true_iff_false. intros H. apply value_eqb_eq in H.
        contradiction. }
      rewrite Hh. simpl. rewrite Hv. reflexivity.
Qed.

Lemma setState_gate_witness :
  let s := useHistoryState DEFAULT_DESIGN None in
  (setState (NewValue DEFAULT_DESIGN) (hist s) = hist s
   /\ setHistory (setState (NewValue DEFAULT_DESIGN)) s = s)
  /\ setState (NewValue Samples.four_columns) (hist s)
     = mkHistory [DEFAULT_DESIGN] Samples.four_columns [].
Proof.
  intros s.
  pose proof (setState_gate (NewValue DEFAULT_DESIGN) s) as (_ & Hsame & _).
  pose proof (setState_gate (NewValue Samples.four_columns) s) as (_ & _ & Hpush).
  split.
  - apply Hsame. reflexivity.
  - apply Hpush. vm_compute. discriminate.
Defined.

(** C1, counterexample.  The default document written with two keys in the
    other order is deeply equal to the default document, yet setting it
    creates a history entry and writes to storage. *)
Lemma setState_key_order_counterexample :
  let s := useHistoryState DEFAULT_DESIGN None in
  deep_eqb Samples.reordered_default (present (hist s)) = true
  /\ past (setState (NewValue Samples.reordered_default) (hist s))
     = [DEFAULT_DESIGN]
  /\ List.length
       (writes (setHistory (setState (NewValue Samples.reordered_default)) s))
     = S (List.length (writes s)).
Proof. vm_compute. repeat split. Qed.

(** C3, as the code has it.  A [setState] whose document differs from the
    present one empties [future], whatever it held; the equality-gated
    no-op leaves [future] as it was. *)
Theorem setState_future (u : SetStateAction) (h : history) :
  let v := resolve u (present h) in
  (v <> present h -> future (setState u h) = [])
  /\ (v = present h -> future (setState u h) = future h).
Proof.
  intros v. split; intros E.
  - rewrite (setState_push u h E). reflexivity.
  - rewrite (setState_same u h E). reflexivity.
Qed.

Lemma setState_future_witness :
  let h := mkHistory [] DEFAULT_DESIGN [Samples.four_columns] in
  future (setState (NewValue Samples.reordered_default) h) = []
  /\ future (setState (NewValue DEFAULT_DESIGN) h) = future h.
Proof.
  intros h. split.
  - apply (proj1 (setState_future (NewValue Samples.reordered_default) h)).
    vm_compute. discriminate.
  - apply (proj2 (setState_future (NewValue DEFAULT_DESIGN) h)).
    reflexivity.
Defined.

(** C3, counterexample.  After four columns were set and undone, setting
    the default document again is the gated no-op, and the redo stack is
    still there. *)
Lemma setState_keeps_future_counterexample :
  let h := undo (setState (NewValue Samples.four_columns)
                   (mkHistory [] DEFAULT_DESIGN [])) in
  future (setState (NewValue DEFAULT_DESIGN) h) = [Samples.four_columns]
  /\ future (setState (NewValue DEFAULT_DESIGN) h) <> [].
Proof. vm_compute. split; [ reflexivity | discriminate ]. Qed.

(** ** Undoing and redoing a burst of edits *)

Lemma last_default {A : Type} (l : list A) (a b : A) :
  l <> [] -> last l a = last l b.
Proof.
  induction l as [ | x [ | y l ] IH ]; intros H.
  - contradiction.
  - reflexivity.
  - change (last (y :: l) a = last (y :: l) b). apply IH. discriminate.
Qed.

Lemma present_run (ds : list value) (h : history) :
  present (run ds h) = last ds (present h).
Proof.
  revert h. unfold run.
  induction ds as [ | d ds IH ]; intros h; [ reflexivity | ].
  simpl fold_left. rewrite IH, present_setState. simpl resolve.
  destruct ds as [ | d' ds ]; [ reflexivity | ].
  change (last (d :: d' :: ds) (present h)) with (last (d' :: ds) (present h)).
  apply last_default. discriminate.
Qed.

Lemma future_setState (u : SetStateAction) (h : history) :
  future h = [] -> future (setState u h) = [].
Proof.
  intros H. unfold setState.
  destruct (String.eqb _ _); [ exact H | reflexivity ].
Qed.

Lemma future_run (ds : list value) (h : history) :
  future h = [] -> future (run ds h) = [].
Proof.
  revert h. unfold run.
  induction ds as [ | d ds IH ]; intros h H; [ exact H | ].
  simpl. apply IH. apply future_setState. exact H.
Qed.

Lemma past_setState (u : SetStateAction) (h : history) :
  List.length (past (setState u h)) <= S (List.length (past h)).
Proof.
  unfold setState.
  destruct (String.eqb _ _); simpl; [ lia | ].
  rewrite length_app. simpl. lia.
Qed.

Lemma past_run (ds : list value) (h : history) :
  List.length (past (run ds h)) <= List.length (past h) + List.length ds.
Proof.
  revert h. unfold run.
  induction ds as [ | d ds IH ]; intros h; simpl; [ lia | ].
  specialize (IH (setState (NewValue d) h)).
  pose proof (past_setState (NewValue d) h). lia.
Qed.

Lemma oldest_timeline (h : history) : hd (present h) (timeline h) = oldest h.
Proof. destruct h as [[ | q ps] p f]; reflexivity. Qed.

Lemma oldest_setState (u : SetStateAction) (h : history) :
  oldest (setState u h) = oldest h.
Proof.
  unfold setState.
  destruct (String.eqb _ _); [ reflexivity | ].
  destruct h as [[ | q ps] p f]; reflexivity.
Qed.

Lemma oldest_run (ds : list value) (h : history) : oldest (run ds h) = oldest h.
Proof.
  revert h. unfold run.
  induction ds as [ | d ds IH ]; intros h; [ reflexivity | ].
  simpl. rewrite IH. apply oldest_setState.
Qed.

Lemma oldest_undo (h : history) : oldest (undo h) = oldest h.
Proof.
  rewrite <- !oldest_timeline, undo_timeline.
  destruct h as [[ | q ps] p f]; [ reflexivity | ].
  unfold timeline. simpl. reflexivity.
Qed.

Lemma past_undo (h : history) :
  List.length (past (undo h)) = List.length (past h) - 1.
Proof.
  destruct h as [ps p f].
  destruct (snoc_cases ps) as [-> | [ps' [q ->]]]; [ reflexivity | ].
  rewrite undo_snoc. simpl. rewrite length_app. simpl. lia.
Qed.

Lemma future_redo (h : history) :
  List.length (future (redo h)) = List.length (future h) - 1.
Proof.
  destruct h as [ps p [ | n f]]; [ reflexivity | ].
  rewrite redo_cons. simpl. lia.
Qed.

(** Enough undos empty [past]: the oldest document is the present one and
    all the others wait in [future]. *)
Lemma undo_drain (n : nat) (h : history) :
  List.length (past h) <= n ->
  Nat.iter n undo h = mkHistory [] (oldest h) (tl (timeline h)).
Proof.
  revert h.
  induction n as [ | n IH ]; intros h Hn.
  - destruct h as [[ | q ps] p f]; simpl in Hn; [ reflexivity | lia ].
  - rewrite Nat.iter_succ_r, IH.
    + rewrite oldest_undo, undo_timeline. reflexivity.
    + rewrite past_undo. lia.
Qed.

(** Enough redos empty [future]: the newest document is the present one. *)
Lemma redo_drain (n : nat) (h : history) :
  List.length (future h) <= n ->
  Nat.iter n redo h
  = mkHistory (removelast (timeline h)) (last (timeline h) (present h)) [].
Proof.
  revert h.
  induction n as [ | n IH ]; intros h Hn.
  - destruct h as [ps p [ | x f]]; simpl in Hn; [ | lia ].
    unfold timeline. simpl.
    rewrite removelast_last, last_last. reflexivity.
  - rewrite Nat.iter_succ_r, IH.
    + rewrite redo_timeline.
      rewrite (last_default (timeline h) (present (redo h)) (present h));
        [ reflexivity | ].
      unfold timeline. destruct (past h); discriminate.
    + rewrite future_redo. lia.
Qed.

(** C4.  Undo on an empty past and redo on an empty future change nothing:
    [past], [present] and [future] stay as they are, nothing is written to
    storage, and this remains so however often the call is repeated.  From
    any history, the calls made beyond the boundary of the stack are no-ops:
    as many undos as [past] has entries, or more, give the same history,
    and likewise for redo.  Both functions are total, so no call raises
    an error. *)
Theorem undo_redo_underflow (s : session) (n : nat) :
  (past (hist s) = [] ->
     Nat.iter n undo (hist s) = hist s
     /\ Nat.iter n (setHistory undo) s = s)
  /\ (future (hist s) = [] ->
     Nat.iter n redo (hist s) = hist s
     /\ Nat.iter n (setHistory redo) s = s)
  /\ (List.length (past (hist s)) <= n ->
     Nat.iter n undo (hist s)
     = Nat.iter (List.length (past (hist s))) undo (hist s))
  /\ (List.length (future (hist s)) <= n ->
     Nat.iter n redo (hist s)
     = Nat.iter (List.length (future (hist s))) redo (hist s)).
Proof.
  split; [ | split; [ | split ] ]; intros H.
  - apply undo_fixed in H. split.
    + apply iter_fixed. exact H.
    + apply iter_fixed. apply setHistory_fixed. exact H.
  - apply redo_fixed in H. split.
    + apply iter_fixed. exact H.
    + apply iter_fixed. apply setHistory_fixed. exact H.
  - rewrite (undo_drain n _ H), (undo_drain _ _ (le_n _)). reflexivity.
  - rewrite (redo_drain n _ H), (redo_drain _ _ (le_n _)). reflexivity.
Qed.

Lemma undo_redo_underflow_witness :
  let s := mkSession (mkHistory [] DEFAULT_DESIGN []) None [] in
  let h := mkHistory [JNum 1] (JNum 2) [JNum 3] in
  (Nat.iter 3 undo (hist s) = hist s /\ Nat.iter 3 (setHistory undo) s = s)
  /\ (Nat.iter 3 redo (hist s) = hist s /\ Nat.iter 3 (setHistory redo) s = s)
  /\ Nat.iter 3 undo h = Nat.iter 1 undo h
  /\ Nat.iter 3 redo h = Nat.iter 1 redo h.
Proof.
  intros s h.
  pose proof (undo_redo_underflow s 3) as (Hundo & Hredo & _).
  pose proof (undo_redo_underflow (mkSession h None []) 3)
    as (_ & _ & Hpast & Hfuture).
  split; [ | split; [ | split ] ].
  - apply Hundo. reflexivity.
  - apply Hredo. reflexivity.
  - apply Hpast. simpl. lia.
  - apply Hfuture. simpl. lia.
Defined.

(** C10.  Undo and redo conserve the sequence of documents: the
    concatenation of [past], [present] and [future] is the same list before
    and after, and when the operation acts it moves the present by exactly
    one position. *)
Theorem undo_redo_conserve (h : history) :
  (past h <> [] ->
     timeline (undo h) = timeline h
     /\ S (List.length (past (undo h))) = List.length (past h))
  /\ (future h <> [] ->
     timeline (redo h) = timeline h
     /\ List.length (past (redo h)) = S (List.length (past h))).
Proof.
  split; intros H; split.
  - apply undo_timeline.
  - destruct h as [ps p f]. simpl in *.
    destruct (snoc_cases ps) as [-> | [ps' [q ->]]]; [ contradiction | ].
    rewrite undo_snoc. simpl. rewrite length_app. simpl. lia.
  - apply redo_timeline.
  - destruct h as [ps p [ | n f]]; simpl in *; [ contradiction | ].
    rewrite length_app. simpl. lia.
Qed.

Lemma undo_redo_conserve_witness :
  let h := mkHistory [JNum 1; JNum 2] (JNum 3) [JNum 4] in
  (timeline (undo h) = timeline h
   /\ S (List.length (past (undo h))) = List.length (past h))
  /\ (timeline (redo h) = timeline h
   /\ List.length (past (redo h)) = S (List.length (past h))).
Proof.
  intros h.
  split.
  - apply (proj1 (undo_redo_conserve h)). discriminate.
  - apply (proj2 (undo_redo_conserve h)). discriminate.
Defined.

(** The round trip of any burst: a call the gate absorbs adds no entry,
    and an undo or redo beyond the entries there are is a no-op. *)
Lemma round_trip_any (d0 : value) (ds : list value) :
  let N := List.length ds in
  let hN := run ds (mkHistory [] d0 []) in
  present (Nat.iter N undo hN) = d0
  /\ past (Nat.iter N undo hN) = []
  /\ Nat.iter N redo (Nat.iter N undo hN) = hN
  /\ present (Nat.iter N redo (Nat.iter N undo hN)) = last ds d0.
Proof.
  intros N hN.
  assert (Hpast : List.length (past hN) <= N)
    by (apply (past_run ds (mkHistory [] d0 []))).
  assert (Hfut : future hN = []) by (apply future_run; reflexivity).
  assert (Hold : oldest hN = d0) by (apply (oldest_run ds (mkHistory [] d0 []))).
  assert (Hpres : present hN = last ds d0)
    by (apply (present_run ds (mkHistory [] d0 []))).
  rewrite (undo_drain N hN Hpast), Hold.
  assert (Hredo : Nat.iter N redo (mkHistory [] d0 (tl (timeline hN))) = hN).
  { rewrite redo_drain.
    - assert (Ht : timeline (mkHistory [] d0 (tl (timeline hN))) = timeline hN).
      { unfold timeline at 1. simpl.
        rewrite <- Hold, <- oldest_timeline.
        unfold timeline. destruct (past hN); reflexivity. }
      rewrite Ht. unfold timeline. rewrite Hfut.
      rewrite removelast_last, last_last.
      destruct hN as [ps p f]. simpl in *. subst f. reflexivity.
    - simpl. unfold timeline. rewrite Hfut.
      destruct (past hN) as [ | q ps ]; simpl in *; [ lia | ].
      rewrite length_app. simpl. lia. }
  repeat split.
  - exact Hredo.
  - rewrite Hredo. exact Hpres.
Qed.

(** Under pairwise distinct documents every call of the burst adds an
    entry, and the history is the burst itself. *)
Lemma run_distinct (ds : list value) (h : history) :
  NoDup (present h :: ds) ->
  future h = [] ->
  timeline (run ds h) = timeline h ++ ds.
Proof.
  revert h. unfold run.
  induction ds as [ | d ds IH ]; intros h Hnd Hf.
  - simpl. rewrite app_nil_r. reflexivity.
  - simpl fold_left.
    apply NoDup_cons_iff in Hnd as [Hin Hnd].
    assert (Hd : resolve (NewValue d) (present h) <> present h).
    { simpl. intros E. apply Hin. left. exact E. }
    rewrite (setState_push _ h Hd). simpl resolve.
    rewrite IH.
    + unfold timeline. simpl. rewrite Hf, <- !app_assoc. reflexivity.
    + exact Hnd.
    + reflexivity.
Qed.

(** C2.  From a history with empty [past] and [future], after a burst of
    [N] [setState] calls with pairwise distinct documents, [N] undos bring
    the initial document back as [present], and [N] redos after them bring
    back the history as the burst left it, whose [present] is the last
    document of the burst.  When the documents also differ from the initial
    one, the burst has left [N] entries and the [N] undos put all its
    documents, in order, on the redo stack. *)
Theorem undo_redo_round_trip (d0 : value) (ds : list value) :
  NoDup ds ->
  let N := List.length ds in
  let hN := run ds (mkHistory [] d0 []) in
  present (Nat.iter N undo hN) = d0
  /\ past (Nat.iter N undo hN) = []
  /\ Nat.iter N redo (Nat.iter N undo hN) = hN
  /\ present (Nat.iter N redo (Nat.iter N undo hN)) = last ds d0
  /\ (~ In d0 ds -> Nat.iter N undo hN = mkHistory [] d0 ds).
Proof.
  intros Hnd N hN.
  destruct (round_trip_any d0 ds) as (Hpresent & Hpast & Hredo & Hlast).
  fold N hN in Hpresent, Hpast, Hredo, Hlast.
  repeat split; try assumption.
  intros Hin.
  assert (Ht : timeline hN = d0 :: ds).
  { apply (run_distinct ds (mkHistory [] d0 [])); [ | reflexivity ].
    simpl. constructor; assumption. }
  rewrite undo_drain.
  - unfold hN at 1. rewrite (oldest_run ds (mkHistory [] d0 [])), Ht.
    reflexivity.
  - apply (past_run ds (mkHistory [] d0 [])).
Qed.

Lemma undo_redo_round_trip_witness :
  let ds := [Samples.four_columns; Samples.reordered_default] in
  let hN := run ds (mkHistory [] DEFAULT_DESIGN []) in
  present (Nat.iter 2 undo hN) = DEFAULT_DESIGN
  /\ past (Nat.iter 2 undo hN) = []
  /\ Nat.iter 2 redo (Nat.iter 2 undo hN) = hN
  /\ present (Nat.iter 2 redo (Nat.iter 2 undo hN)) = Samples.reordered_default
  /\ Nat.iter 2 undo hN = mkHistory [] DEFAULT_DESIGN ds.
Proof.
  intros ds hN.
  assert (Hnd : NoDup ds)
    by (repeat constructor; simpl; intuition discriminate).
  assert (Hin : ~ In DEFAULT_DESIGN ds) by (simpl; intuition discriminate).
  pose proof (undo_redo_round_trip DEFAULT_DESIGN ds Hnd) as H.
  cbv zeta in H.
  destruct H as (H1 & H2 & H3 & H4 & H5).
  split; [ exact H1 | ].
  split; [ exact H2 | ].
  split; [ exact H3 | ].
  split; [ exact H4 | ].
  exact (H5 Hin).
Defined.

(** ** Keyboard shortcuts *)

Lemma canUndo_false (h : history) : History.canUndo h = false <-> past h = [].
Proof.
  unfold History.canUndo.
  destruct (past h); simpl; split; try reflexivity; discriminate.
Qed.

Lemma canRedo_false (h : history) : History.canRedo h = false <-> future h = [].
Proof.
  unfold History.canRedo.
  destruct (future h); simpl; split; try reflexivity; discriminate.
Qed.

Lemma guarded_undo (s : session) :
  (if History.canUndo (hist s) then setHistory undo s else s) = setHistory undo s.
Proof.
  destruct (History.canUndo (hist s)) eqn:E; [ reflexivity | ].
  symmetry. apply setHistory_fixed, undo_fixed, canUndo_false. exact E.
Qed.

Lemma guarded_redo (s : session) :
  (if History.canRedo (hist s) then setHistory redo s else s) = setHistory redo s.
Proof.
  destruct (History.canRedo (hist s)) eqn:E; [ reflexivity | ].
  symmetry. apply setHistory_fixed, redo_fixed, canRedo_false. exact E.
Qed.

(** C8.  The dispatch of the key handler on an event with the control or
    the command modifier.  As the claim has it where the key is the small
    letter: [z] without the shift flag runs undo, and when [past] is empty
    the handler does not call it at all, whatever the callback is; [z]
    with the shift flag runs redo; [y] runs redo; and on an empty stack
    the event leaves the session, storage included, as it was.  But the
    handler compares the key with the small letter only, and the key of
    an event is the capital letter while shift is held: on the key [Z]
    the handler does nothing, it neither calls [preventDefault] nor redo,
    also when [future] holds a document, which the redo of the sibling
    shortcut [y] makes the present one.  The handler is a total function,
    so no event raises an error. *)
Theorem keydown_shortcuts (e : KeyboardEvent) (s : session) :
  ctrlKey e || metaKey e = true ->
  (key e = "z"%string -> shiftKey e = false ->
     keydown e s = (true, setHistory undo s)
     /\ (past (hist s) = [] ->
         forall (S : Type) (onUndo onRedo : S -> S) (x : S) (canRedo : bool),
           handleKeyDown (History.canUndo (hist s)) canRedo onUndo onRedo e x
           = (true, x)))
  /\ (key e = "z"%string -> shiftKey e = true ->
     keydown e s = (true, setHistory redo s))
  /\ (key e = "y"%string -> keydown e s = (true, setHistory redo s))
  /\ (past (hist s) = [] -> setHistory undo s = s)
  /\ (future (hist s) = [] -> setHistory redo s = s)
  /\ (key e = "Z"%string ->
      keydown e s = (false, s)
      /\ forall n f,
           future (hist s) = n :: f ->
           hist (setHistory redo s)
           = mkHistory (past (hist s) ++ [present (hist s)]) n f).
Proof.
  intros Hmod. unfold keydown, handleKeyDown. rewrite Hmod.
  split; [ | split; [ | split; [ | split; [ | split ] ] ] ].
  - intros Hz Hshift. rewrite Hz, Hshift. simpl.
    rewrite guarded_undo. split; [ reflexivity | ].
    intros Hp S onUndo onRedo x canRedo.
    apply canUndo_false in Hp. rewrite Hp. reflexivity.
  - intros Hz Hshift. rewrite Hz, Hshift. simpl.
    rewrite guarded_redo. reflexivity.
  - intros Hy. rewrite Hy. simpl. rewrite guarded_redo. reflexivity.
  - intros Hp. apply setHistory_fixed, undo_fixed. exact Hp.
  - intros Hf. apply setHistory_fixed, redo_fixed. exact Hf.
  - intros HZ. rewrite HZ. split; [ reflexivity | ].
    intros n f Hf.
    assert (E : hist (setHistory redo s) = redo (hist s)).
    { unfold setHistory.
      destruct (history_eqb (redo (hist s)) (hist s)) eqn:Eh.
      - apply history_eqb_eq in Eh. symmetry. exact Eh.
      - destruct (value_eqb (present (redo (hist s))) (present (hist s)));
          reflexivity. }
    rewrite E. destruct (hist s) as [ps p fs]. cbn [future] in Hf.
    rewrite Hf. apply redo_cons.
Qed.

(** The comparison with [z] is exact: an event whose key is the capital
    letter, as a keyboard reports it while shift is held, is not a
    shortcut. *)
Lemma keydown_capital (s : session) :
  keydown (mkKey true false true "Z") s = (false, s).
Proof. reflexivity. Qed.

Lemma keydown_shortcuts_witness :
  let s0 := useHistoryState DEFAULT_DESIGN None in
  let s := setHistory undo
             (setHistory (setState (NewValue Samples.long_heading))
                (setHistory (setState (NewValue Samples.four_columns)) s0)) in
  let ctrl_z := mkKey true false false "z" in
  let ctrl_shift_Z := mkKey true false true "Z" in
  keydown ctrl_z s = (true, setHistory undo s)
  /\ handleKeyDown (History.canUndo (hist s0)) true Nat.succ Nat.pred ctrl_z 7
     = (true, 7)
  /\ keydown (mkKey false true true "z") s = (true, setHistory redo s)
  /\ keydown (mkKey true false false "y") s = (true, setHistory redo s)
  /\ setHistory undo s0 = s0
  /\ setHistory redo s0 = s0
  /\ keydown ctrl_shift_Z s = (false, s)
  /\ hist (setHistory redo s)
     = mkHistory (past (hist s) ++ [present (hist s)]) Samples.long_heading [].
Proof.
  intros s0 s ctrl_z ctrl_shift_Z.
  pose proof (keydown_shortcuts ctrl_z s eq_refl) as (Hundo & _).
  pose proof (keydown_shortcuts ctrl_z s0 eq_refl)
    as (Hundo0 & _ & _ & Hpast & Hfuture & _).
  pose proof (keydown_shortcuts (mkKey false true true "z") s eq_refl)
    as (_ & Hredo & _).
  pose proof (keydown_shortcuts (mkKey true false false "y") s eq_refl)
    as (_ & _ & Hy & _).
  pose proof (keydown_shortcuts ctrl_shift_Z s eq_refl)
    as (_ & _ & _ & _ & _ & Hcapital).
  destruct (Hundo eq_refl eq_refl) as [Hcall _].
  destruct (Hundo0 eq_refl eq_refl) as [_ Hskip].
  destruct (Hcapital eq_refl) as [Hnone Hmissed].
  split; [ exact Hcall | ].
  split; [ exact (Hskip eq_refl nat Nat.succ Nat.pred 7 true) | ].
  split; [ apply Hredo; reflexivity | ].
  split; [ apply Hy; reflexivity | ].
  split; [ apply Hpast; reflexivity | ].
  split; [ apply Hfuture; reflexivity | ].
  split; [ exact Hnone | ].
  apply Hmissed. vm_compute. reflexivity.
Defined.

(** ** Loading the stored document *)

Lemma stringify_nonempty (v : value) : stringify v <> EmptyString.
Proof.
  unfold stringify.
  destruct (print_head v) as (c & tl & E & _). rewrite E. discriminate.
Qed.

Lemma init_parsed (D : value) (s : string) (v : value) :
  parse s = Some v ->
  init D (Some s) = mkHistory [] (JObj (spread (spread [] D) v)) [].
Proof.
  intros H. unfold init.
  destruct s as [ | c s ]; [ discriminate H | ].
  rewrite H. reflexivity.
Qed.

Lemma init_unparsed (D : value) (s : string) :
  parse s = None -> init D (Some s) = mkHistory [] D [].
Proof.
  intros H. unfold init.
  destruct s as [ | c s ]; [ reflexivity | ].
  rewrite H. reflexivity.
Qed.

Lemma parse_SyntaxError (s : string) : read s = SyntaxError -> parse s = None.
Proof. intros H. unfold parse. rewrite H. reflexivity. Qed.

Lemma normalize_keys (v : value) (ps : list (string * value)) :
  normalize v = JObj ps -> NoDup (keys ps).
Proof.
  destruct v; simpl; try discriminate.
  intros H. injection H as <-.
  apply define_all_NoDup. constructor.
Qed.

Lemma parse_object_keys (s : string) (ps : list (string * value)) :
  parse s = Some (JObj ps) -> NoDup (keys ps).
Proof.
  unfold parse, read.
  destruct (parse_value _ _) as [v rest | | ]; cbn [and_then];
    [ | discriminate | discriminate ].
  destruct (skip_ws rest); [ | discriminate ].
  destruct (safe v); [ | discriminate ].
  intros H. injection H as H. exact (normalize_keys v ps H).
Qed.





Lemma index_key_inj (i j : nat) : index_key i = index_key j -> i = j.
Proof.
  unfold index_key. intros H.
  apply (f_equal chars) in H. rewrite !chars_text in H.
  assert (E : N.to_uint (N.of_nat i) = N.to_uint (N.of_nat j)).
  { pose proof (read_digits_digits (N.to_uint (N.of_nat i)) [] I) as Hi.
    pose proof (read_digits_digits (N.to_uint (N.of_nat j)) [] I) as Hj.
    rewrite app_nil_r in Hi, Hj. rewrite H in Hi. congruence. }
  apply (f_equal N.of_uint) in E.
  rewrite !DecimalN.Unsigned.of_to in E. lia.
Qed.

Lemma indexed_keys (i : nat) (items : list value) (k : string) :
  In k (keys (indexed i items)) -> exists j, i <= j /\ k = index_key j.
Proof.
  revert i. induction items as [ | v items IH ]; intros i; cbn [indexed].
  - intros [].
  - intros [<- | Hin].
    + exists i. split; [ lia | reflexivity ].
    + destruct (IH (S i) Hin) as (j & Hj & ->).
      exists j. split; [ lia | reflexivity ].
Qed.

Lemma indexed_NoDup (i : nat) (items : list value) :
  NoDup (keys (indexed i items)).
Proof.
  revert i. induction items as [ | v items IH ]; intros i; cbn [indexed].
  - constructor.
  - change (NoDup (index_key i :: keys (indexed (S i) items))).
    constructor; [ | apply IH ].
    intros Hin. destruct (indexed_keys _ _ _ Hin) as (j & Hj & E).
    apply index_key_inj in E. lia.
Qed.

(** The own properties of a parsed value have pairwise distinct keys. *)
Lemma parsed_props_NoDup (s : string) (v : value) :
  parse s = Some v -> NoDup (keys (own_props v)).
Proof.
  intros Hs. destruct v as [ | b | n | t | items | ps ]; cbn [own_props];
    try constructor; try apply indexed_NoDup.
  exact (parse_object_keys s ps Hs).
Qed.

(** C6, as the code has it.  Whatever the storage slot holds, [init]
    returns a history with empty [past] and [future].  With defaults that
    are a record (no repeated key, no array-index key), the document is the
    defaults when the slot is empty or holds the empty text, when the text
    is a syntax error, and when it parses to a value without own
    properties ([null], a number, a boolean, and the empty string, array
    and object).  Any parsed value is merged into the defaults key by key,
    whatever its shape: each own property of the value (the indices of an
    array, the code units of a string, the members of an object) is
    defined on a copy of the defaults, so that in the initial document a
    key of the value reads as the value has it and any other key reads as
    the defaults have it. *)
Theorem init_fallback (dprops : list (string * value)) (item : option string) :
  distinct (keys dprops) = true ->
  forallb plain_key (keys dprops) = true ->
  let D := JObj dprops in
  past (init D item) = []
  /\ future (init D item) = []
  /\ (item = None \/ item = Some EmptyString -> init D item = mkHistory [] D [])
  /\ (forall s, item = Some s -> read s = SyntaxError ->
        init D item = mkHistory [] D [])
  /\ (forall s v, item = Some s -> parse s = Some v -> own_props v = [] ->
        init D item = mkHistory [] D [])
  /\ (forall s v, item = Some s -> parse s = Some v ->
        init D item = mkHistory [] (JObj (define_all (own_props v) dprops)) []
        /\ forall k,
             prop k (present (init D item))
             = match lookup k (own_props v) with
               | Some x => Some x
               | None => lookup k dprops
               end).
Proof.
  intros Hdistinct Hplain D.
  assert (Hcopy : spread [] D = dprops).
  { unfold spread, D. simpl own_props.
    apply (define_all_plain dprops []); [ | exact Hplain ].
    apply distinct_NoDup. exact Hdistinct. }
  split; [ | split; [ | split; [ | split; [ | split ] ] ] ].
  - destruct item as [ [ | c s ] | ]; try reflexivity.
    unfold init. destruct (parse (String c s)); reflexivity.
  - destruct item as [ [ | c s ] | ]; try reflexivity.
    unfold init. destruct (parse (String c s)); reflexivity.
  - intros [-> | ->]; reflexivity.
  - intros s -> Hs. apply init_unparsed, parse_SyntaxError. exact Hs.
  - intros s v -> Hs Hv.
    rewrite (init_parsed D s v Hs).
    unfold spread at 1. rewrite Hv. simpl define_all.
    rewrite Hcopy. reflexivity.
  - intros s v -> Hs.
    rewrite (init_parsed D s v Hs).
    unfold spread at 1. rewrite Hcopy.
    split; [ reflexivity | ].
    intros k. cbn [present prop].
    apply lookup_define_all. exact (parsed_props_NoDup s v Hs).
Qed.

Lemma init_fallback_witness :
  init DEFAULT_DESIGN None = mkHistory [] DEFAULT_DESIGN []
  /\ init DEFAULT_DESIGN (Some Samples.truncated_payload)
     = mkHistory [] DEFAULT_DESIGN []
  /\ init DEFAULT_DESIGN (Some "null"%string) = mkHistory [] DEFAULT_DESIGN []
  /\ past (init DEFAULT_DESIGN (Some Samples.array_payload)) = []
  /\ future (init DEFAULT_DESIGN (Some Samples.array_payload)) = []
  /\ prop "0" (present (init DEFAULT_DESIGN (Some Samples.array_payload)))
     = Some (JNum 1)
  /\ prop "gridGap" (present (init DEFAULT_DESIGN (Some Samples.array_payload)))
     = Some (JNum 24)
  /\ prop "legacy" (present (init DEFAULT_DESIGN (Some Samples.legacy_payload)))
     = Some (JNum 1).
Proof.
  pose proof (fun item =>
                init_fallback (own_props DEFAULT_DESIGN) item eq_refl eq_refl)
    as H.
  split; [ | split; [ | split; [ | split; [ | split; [ | split; [ | split ] ] ] ] ] ].
  - destruct (H None) as (_ & _ & Habsent & _).
    apply Habsent. left. reflexivity.
  - destruct (H (Some Samples.truncated_payload)) as (_ & _ & _ & Hbad & _).
    apply (Hbad Samples.truncated_payload); reflexivity.
  - destruct (H (Some "null"%string)) as (_ & _ & _ & _ & Hnone & _).
    apply (Hnone "null"%string JNull); reflexivity.
  - destruct (H (Some Samples.array_payload)) as (Hpast & _).
    exact Hpast.
  - destruct (H (Some Samples.array_payload)) as (_ & Hfuture & _).
    exact Hfuture.
  - destruct (H (Some Samples.array_payload)) as (_ & _ & _ & _ & _ & Hmerge).
    destruct (Hmerge Samples.array_payload (JArr [JNum 1]) eq_refl eq_refl)
      as [_ Hprop].
    exact (Hprop "0"%string).
  - destruct (H (Some Samples.array_payload)) as (_ & _ & _ & _ & _ & Hmerge).
    destruct (Hmerge Samples.array_payload (JArr [JNum 1]) eq_refl eq_refl)
      as [_ Hprop].
    exact (Hprop "gridGap"%string).
  - destruct (H (Some Samples.legacy_payload)) as (_ & _ & _ & _ & _ & Hmerge).
    destruct (Hmerge Samples.legacy_payload (JObj [("legacy"%string, JNum 1)])
                eq_refl eq_refl) as [_ Hprop].
    exact (Hprop "legacy"%string).
Defined.

(** C6, counterexample.  The stored text [[1]] is valid JSON and not an
    object; it is not treated as absent: its element becomes the property
    [0] of the initial document, which is not the defaults. *)
Lemma init_non_object_counterexample :
  let h := init DEFAULT_DESIGN (Some Samples.array_payload) in
  parse Samples.array_payload = Some (JArr [JNum 1])
  /\ prop "0" (present h) = Some (JNum 1)
  /\ deep_eqb (present h) DEFAULT_DESIGN = false.
Proof. vm_compute. repeat split. Qed.

(** ** The formatted-text renderer *)







Lemma match_at_other (c : ascii) (l : list ascii) :
  Ascii.eqb "*" c = false -> match_at (c :: l) = None.
Proof.
  intros Hc. unfold match_at, delimited.
  change (strip_prefix (chars "**") (c :: l))
    with (if Ascii.eqb "*" c then strip_prefix (chars "*") l else None).
  change (strip_prefix (chars "*") (c :: l))
    with (if Ascii.eqb "*" c then Some l else None).
  rewrite Hc. reflexivity.
Qed.

Lemma split_loop_plain (fuel : nat) (piece l : list ascii) :
  List.length l < fuel -> ~ In "*"%char l ->
  split_loop fuel piece l = [piece ++ l].
Proof.
  revert piece l.
  induction fuel as [ | fuel IH ]; intros piece l Hfuel Hstar; [ lia | ].
  destruct l as [ | c l ].
  - simpl. rewrite app_nil_r. reflexivity.
  - assert (Hc : Ascii.eqb "*" c = false).
    { apply Ascii.eqb_neq. intros <-. apply Hstar. left. reflexivity. }
    cbn [split_loop]. rewrite (match_at_other c l Hc).
    rewrite IH.
    + rewrite <- app_assoc. reflexivity.
    + simpl in Hfuel. lia.
    + intros H. apply Hstar. right. exact H.
Qed.

(** A text without asterisk is a single plain segment. *)
Lemma split_plain (l : list ascii) : ~ In "*"%char l -> split l = [l].
Proof. intros H. apply (split_loop_plain (S (List.length l)) [] l); [ lia | exact H ]. Qed.

(** C7.  The renderer on the test vectors of the specification, for any
    two colours.  The first five come out as specified: the styled
    segments are flanked by the empty strings the split leaves around a
    match at either end of the text.  On the unbalanced ["**oops"] the two
    asterisks alone match the single-asterisk alternative, the part ["**"]
    passes the test for bold, and its content between the delimiters is
    empty: the asterisks are not on the screen. *)
Theorem renderFormattedText_vectors (primary secondary : string) :
  renderFormattedText "plain" primary secondary = Some [Plain "plain"]
  /\ renderFormattedText "**bold**" primary secondary
     = Some [Plain ""; Strong primary "bold"; Plain ""]
  /\ renderFormattedText "*it*" primary secondary
     = Some [Plain ""; Em secondary "it"; Plain ""]
  /\ renderFormattedText "a **b** c *d* e" primary secondary
     = Some [Plain "a "; Strong primary "b"; Plain " c ";
             Em secondary "d"; Plain " e"]
  /\ renderFormattedText "" primary secondary = None
  /\ renderFormattedText "**oops" primary secondary
     = Some [Plain ""; Strong primary ""; Plain "oops"]
  /\ screen (renderFormattedText "**oops" primary secondary) = "oops"%string.
Proof. repeat split. Qed.

(* ================================================================== *)
(** * Further properties of the hook *)
(* ================================================================== *)

(** X1.  Undo and redo are inverse to each other: a redo that acts is
    undone by the next undo, and an undo that acts is redone by the next
    redo, the whole history coming back as it was. *)
Theorem undo_redo_inverse (h : history) :
  (future h <> [] -> undo (redo h) = h)
  /\ (past h <> [] -> redo (undo h) = h).
Proof.
  destruct h as [ps p f]. simpl. split; intros H.
  - destruct f as [ | n f ]; [ contradiction | ].
    rewrite redo_cons, undo_snoc. reflexivity.
  - destruct (snoc_cases ps) as [-> | [ps' [q ->]]]; [ contradiction | ].
    rewrite undo_snoc, redo_cons. reflexivity.
Qed.

Lemma undo_redo_inverse_witness :
  let h := mkHistory [JNum 1] (JNum 2) [JNum 3] in
  undo (redo h) = h /\ redo (undo h) = h.
Proof.
  intros h. split.
  - apply (proj1 (undo_redo_inverse h)). discriminate.
  - apply (proj2 (undo_redo_inverse h)). discriminate.
Defined.

(** X2.  An edit that changes the document can be taken back: the undo
    after it restores [past] and [present] as they were before the edit and
    leaves the new document as the only entry of [future], whatever
    [future] held before; the redo after that undo gives the edited history
    again. *)
Theorem setState_undo (u : SetStateAction) (h : history) :
  resolve u (present h) <> present h ->
  undo (setState u h)
  = mkHistory (past h) (present h) [resolve u (present h)]
  /\ redo (undo (setState u h)) = setState u h.
Proof.
  intros E. rewrite (setState_push u h E), undo_snoc, redo_cons.
  split; reflexivity.
Qed.

Lemma setState_undo_witness :
  let h := mkHistory [] DEFAULT_DESIGN [Samples.reordered_default] in
  undo (setState (NewValue Samples.four_columns) h)
  = mkHistory [] DEFAULT_DESIGN [Samples.four_columns]
  /\ redo (undo (setState (NewValue Samples.four_columns) h))
     = setState (NewValue Samples.four_columns) h.
Proof.
  intros h.
  apply (setState_undo (NewValue Samples.four_columns) h).
  vm_compute. discriminate.
Defined.

(** X3.  The flags that enable the undo and redo buttons are exact:
    [canUndo] holds precisely when an undo would change the history, and
    [canRedo] precisely when a redo would. *)
Theorem canUndo_canRedo_exact (h : history) :
  (History.canUndo h = true <-> undo h <> h)
  /\ (History.canRedo h = true <-> redo h <> h).
Proof.
  split.
  - rewrite undo_fixed, <- canUndo_false.
    destruct (History.canUndo h); split; congruence.
  - rewrite redo_fixed, <- canRedo_false.
    destruct (History.canRedo h); split; congruence.
Qed.

(** ** Storage follows the document *)

(** The accepting storage of [persist], [setHistory] and
    [useHistoryState] is the instance that refuses nothing. *)
Lemma accepting_storage (f : history -> history) (D : value)
  (stored : option string) (h : history) (s : session) :
  persist_on (fun _ => true) h s = persist h s
  /\ setHistory_on (fun _ => true) f s = setHistory f s
  /\ mount (fun _ => true) D stored = useHistoryState D stored.
Proof. repeat split. Qed.

Lemma hist_setHistory_on (accepts : string -> bool)
  (f : history -> history) (s : session) :
  hist (setHistory_on accepts f s) = f (hist s).
Proof.
  unfold setHistory_on.
  destruct (history_eqb (f (hist s)) (hist s)) eqn:E.
  - apply history_eqb_eq in E. symmetry. exact E.
  - destruct (value_eqb (present (f (hist s))) (present (hist s)));
      reflexivity.
Qed.

Lemma persist_on_in_sync (accepts : string -> bool) (stored : option string)
  (h : history) (s : session) :
  slot s = latest_accepted accepts stored s ->
  in_sync accepts stored (persist_on accepts h s).
Proof.
  intros Hs. unfold in_sync, latest_accepted, persist_on.
  cbn [hist slot writes hd_error find].
  split; [ reflexivity | ].
  destruct (accepts (stringify (present h))); [ reflexivity | exact Hs ].
Qed.

Lemma setHistory_on_in_sync (accepts : string -> bool)
  (stored : option string) (f : history -> history) (s : session) :
  in_sync accepts stored s -> in_sync accepts stored (setHistory_on accepts f s).
Proof.
  intros [Hw Hs]. unfold setHistory_on.
  destruct (history_eqb (f (hist s)) (hist s)); [ split; assumption | ].
  destruct (value_eqb (present (f (hist s))) (present (hist s))) eqn:E.
  - apply value_eqb_eq in E.
    split; cbn [hist slot writes]; [ rewrite E; exact Hw | exact Hs ].
  - apply persist_on_in_sync. exact Hs.
Qed.

(** Documents within the safe integers stay so through the copies the hook
    makes. *)
Lemma safe_replace (k : string) (v : value) (o : list (string * value)) :
  safe v = true -> forallb (fun kv => safe (snd kv)) o = true ->
  forallb (fun kv => safe (snd kv)) (replace_prop k v o) = true.
Proof.
  intros Hv. induction o as [ | [k0 v0] o IH ]; cbn [replace_prop forallb snd];
    [ reflexivity | ].
  intros H. apply andb_true_iff in H as [H0 H].
  destruct (String.eqb k k0); cbn [forallb snd].
  - rewrite Hv, H. reflexivity.
  - rewrite H0, (IH H). reflexivity.
Qed.

Lemma safe_insert (i : N) (k : string) (v : value)
  (o : list (string * value)) :
  safe v = true -> forallb (fun kv => safe (snd kv)) o = true ->
  forallb (fun kv => safe (snd kv)) (insert_index i k v o) = true.
Proof.
  intros Hv. induction o as [ | [k0 v0] o IH ]; cbn [insert_index].
  - intros _. cbn [forallb snd]. rewrite Hv. reflexivity.
  - intros H. pose proof H as H'.
    cbn [forallb snd] in H. apply andb_true_iff in H as [H0 H].
    destruct (array_index k0) as [j | ].
    + destruct (N.ltb j i); cbn [forallb snd] in *.
      * rewrite H0, (IH H). reflexivity.
      * rewrite Hv. exact H'.
    + cbn [forallb snd] in *. rewrite Hv. exact H'.
Qed.

Lemma safe_define_prop (k : string) (v : value) (o : list (string * value)) :
  safe v = true -> forallb (fun kv => safe (snd kv)) o = true ->
  forallb (fun kv => safe (snd kv)) (define_prop k v o) = true.
Proof.
  intros Hv Ho. unfold define_prop.
  destruct (has_key k o); [ apply safe_replace; assumption | ].
  destruct (array_index k); [ apply safe_insert; assumption | ].
  rewrite forallb_app, Ho. cbn [forallb snd]. rewrite Hv. reflexivity.
Qed.

Lemma safe_define_all (ps o : list (string * value)) :
  forallb (fun kv => safe (snd kv)) ps = true ->
  forallb (fun kv => safe (snd kv)) o = true ->
  forallb (fun kv => safe (snd kv)) (define_all ps o) = true.
Proof.
  revert o. unfold define_all.
  induction ps as [ | [k v] ps IH ]; intros o Hps Ho; cbn [fold_left].
  - exact Ho.
  - cbn [forallb snd] in Hps. apply andb_true_iff in Hps as [Hv Hps].
    apply IH; [ exact Hps | ]. apply safe_define_prop; assumption.
Qed.

Lemma safe_indexed (i : nat) (items : list value) :
  forallb safe items = true ->
  forallb (fun kv => safe (snd kv)) (indexed i items) = true.
Proof.
  revert i. induction items as [ | v items IH ]; intros i H;
    cbn [indexed forallb snd] in *; [ reflexivity | ].
  apply andb_true_iff in H as [Hv H]. rewrite Hv, (IH _ H). reflexivity.
Qed.

Lemma safe_own_props (v : value) :
  safe v = true -> forallb (fun kv => safe (snd kv)) (own_props v) = true.
Proof.
  destruct v as [ | b | n | t | items | ps ]; cbn [own_props];
    try reflexivity.
  - intros _. apply safe_indexed.
    induction (chars t) as [ | c l IH ]; [ reflexivity | exact IH ].
  - cbn [safe]. apply safe_indexed.
  - cbn [safe]. intros H. exact H.
Qed.

Lemma safe_normalize (v : value) : safe v = true -> safe (normalize v) = true.
Proof.
  induction v as [ | b | z | s | items IH | props IH ] using value_induction;
    intros Hv; try exact Hv.
  - cbn [normalize safe] in *.
    induction IH as [ | x xs Hx _ IHxs ]; [ reflexivity | ].
    cbn [map forallb] in *. apply andb_true_iff in Hv as [Hx' Hxs].
    rewrite (Hx Hx'), (IHxs Hxs). reflexivity.
  - cbn [normalize safe] in *.
    apply safe_define_all; [ | reflexivity ].
    induction IH as [ | [k x] ps Hx _ IHps ]; [ reflexivity | ].
    cbn [map forallb snd fst] in *. apply andb_true_iff in Hv as [Hx' Hps].
    rewrite (Hx Hx'), (IHps Hps). reflexivity.
Qed.

Lemma parse_safe (s : string) (v : value) : parse s = Some v -> safe v = true.
Proof.
  unfold parse, read.
  destruct (parse_value _ _) as [v0 rest | | ]; cbn [and_then];
    [ | discriminate | discriminate ].
  destruct (skip_ws rest); [ | discriminate ].
  destruct (safe v0) eqn:E; [ | discriminate ].
  intros [= <-]. apply safe_normalize. exact E.
Qed.

Lemma init_safe (D : value) (stored : option string) :
  safe D = true -> safe (present (init D stored)) = true.
Proof.
  intros HD. unfold init.
  destruct stored as [ [ | c s ] | ]; try exact HD.
  destruct (parse (String c s)) as [v | ] eqn:E; [ | exact HD ].
  cbn [present safe].
  apply safe_define_all; [ apply safe_own_props, (parse_safe _ _ E) | ].
  apply safe_define_all; [ apply safe_own_props, HD | reflexivity ].
Qed.

Lemma init_timeline (D : value) (stored : option string) :
  timeline (init D stored) = [present (init D stored)].
Proof.
  unfold init.
  destruct stored as [ [ | c s ] | ]; try reflexivity.
  destruct (parse (String c s)); reflexivity.
Qed.

Lemma live_in_sync (accepts : string -> bool) (D : value)
  (stored : option string) (s : session) :
  live accepts D stored s ->
  in_sync accepts stored s
  /\ Forall (fun d => safe d = true) (timeline (hist s)).
Proof.
  induction 1 as [ HD _ | u s _ [IHs IHt] Hu | s _ [IHs IHt] | s _ [IHs IHt] ].
  - split; [ apply persist_on_in_sync; reflexivity | ].
    unfold mount, persist_on. cbn [hist]. rewrite init_timeline.
    constructor; [ apply init_safe, HD | constructor ].
  - split; [ apply setHistory_on_in_sync; exact IHs | ].
    rewrite hist_setHistory_on.
    destruct (value_eq_cases (resolve u (present (hist s))) (present (hist s)))
      as [E | E].
    + rewrite (setState_same u _ E). exact IHt.
    + rewrite (setState_push u _ E). unfold timeline in *. cbn [past present future].
      apply Forall_app in IHt as [Hp Hf]. apply Forall_cons_iff in Hf as [Hc _].
      apply Forall_app. split.
      * apply Forall_app. split; [ exact Hp | constructor; [ exact Hc | constructor ] ].
      * constructor; [ exact Hu | constructor ].
  - split; [ apply setHistory_on_in_sync; exact IHs | ].
    rewrite hist_setHistory_on, undo_timeline. exact IHt.
  - split; [ apply setHistory_on_in_sync; exact IHs | ].
    rewrite hist_setHistory_on, redo_timeline. exact IHt.
Qed.

(** X4.  Storage follows the document as far as the storage lets it.  From
    the first render on, after any sequence of edits, undos and redos, on
    a storage that may refuse texts: the last text handed to [setItem] is
    the [JSON.stringify] text of the present document; the slot holds the
    latest text the storage accepted, and what it held at the mount when
    none was accepted; hence the slot holds the text of the present
    document whenever the storage accepts that text.  The documents hold
    safe integers, on which the text is the one the engine prints. *)
Theorem storage_in_sync (accepts : string -> bool) (D : value)
  (stored : option string) (s : session) :
  live accepts D stored s ->
  hd_error (writes s) = Some (stringify (present (hist s)))
  /\ slot s = latest_accepted accepts stored s
  /\ (accepts (stringify (present (hist s))) = true ->
      slot s = Some (stringify (present (hist s))))
  /\ safe (present (hist s)) = true.
Proof.
  intros H. destruct (live_in_sync accepts D stored s H) as [[Hw Hs] Ht].
  split; [ exact Hw | ]. split; [ exact Hs | ]. split.
  - intros Hacc. rewrite Hs. unfold latest_accepted.
    destruct (writes s) as [ | payload w ]; [ discriminate Hw | ].
    cbn [hd_error] in Hw. injection Hw as ->.
    cbn [find]. rewrite Hacc. reflexivity.
  - unfold timeline in Ht. apply Forall_app in Ht as [_ Ht].
    apply Forall_cons_iff in Ht as [Hp _]. exact Hp.
Qed.

Lemma storage_in_sync_witness :
  let quota := within (String.length (stringify DEFAULT_DESIGN)) in
  let edited := setHistory_on quota (setState (NewValue Samples.long_heading))
                  (mount quota DEFAULT_DESIGN None) in
  let undone := setHistory_on quota undo edited in
  (hd_error (writes edited) = Some (stringify Samples.long_heading)
   /\ slot edited = Some (stringify DEFAULT_DESIGN))
  /\ (hd_error (writes undone) = Some (stringify DEFAULT_DESIGN)
      /\ slot undone = Some (stringify DEFAULT_DESIGN)).
Proof.
  intros quota edited undone.
  assert (Hedited : live quota DEFAULT_DESIGN None edited)
    by (apply live_setState;
        [ apply live_mount; [ reflexivity | exact I ] | reflexivity ]).
  destruct (storage_in_sync quota DEFAULT_DESIGN None edited Hedited)
    as (Hw & Hs & _).
  destruct (storage_in_sync quota DEFAULT_DESIGN None undone
              (live_undo _ _ _ _ Hedited)) as (Hw' & _ & Hs' & _).
  split; split.
  - exact Hw.
  - rewrite Hs. vm_compute. reflexivity.
  - exact Hw'.
  - apply Hs'. vm_compute. reflexivity.
Defined.

(** ** Edits made through the controls and the assistant *)

Lemma replace_same (k : string) (v : value) (o : list (string * value)) :
  lookup k o = Some v -> replace_prop k v o = o.
Proof.
  induction o as [ | [k0 v0] o IH ]; simpl; [ reflexivity | ].
  destruct (String.eqb k k0).
  - intros H. injection H as ->. reflexivity.
  - intros H. rewrite (IH H). reflexivity.
Qed.

Lemma define_same (k : string) (v : value) (o : list (string * value)) :
  lookup k o = Some v -> define_prop k v o = o.
Proof.
  intros H. unfold define_prop, has_key. rewrite H. apply replace_same, H.
Qed.

Lemma define_all_same (ps o : list (string * value)) :
  (forall k v, In (k, v) ps -> lookup k o = Some v) -> define_all ps o = o.
Proof.
  unfold define_all.
  induction ps as [ | [k v] ps IH ]; intros H; simpl; [ reflexivity | ].
  rewrite define_same by (apply H; left; reflexivity).
  apply IH. intros k' v' Hin. apply H. right. exact Hin.
Qed.

Lemma define_keys (k : string) (v : value) (o : list (string * value)) :
  In k (keys o) -> keys (define_prop k v o) = keys o.
Proof.
  intros Hin. unfold define_prop, has_key.
  destruct (lookup k o) eqn:E.
  - apply keys_replace.
  - apply lookup_none in E. contradiction.
Qed.

Lemma define_all_keys (ps o : list (string * value)) :
  (forall k, In k (keys ps) -> In k (keys o)) ->
  keys (define_all ps o) = keys o.
Proof.
  revert o. unfold define_all.
  induction ps as [ | [k v] ps IH ]; intros o H; simpl; [ reflexivity | ].
  assert (Hk : keys (define_prop k v o) = keys o)
    by (apply define_keys, H; left; reflexivity).
  rewrite IH, Hk; [ reflexivity | ].
  intros k' Hin. rewrite Hk. apply H. right. exact Hin.
Qed.

Lemma setField_applySettings (k : string) (v p : value) :
  resolve (setField k v) p = resolve (applySettings (JObj [(k, v)])) p.
Proof. reflexivity. Qed.

(** X5.  Choosing again what the document already holds leaves no trace:
    when every setting of an assistant tool call, or the value a control
    sets, equals the value the present document has under that key, the
    call adds no history entry and writes nothing to storage, although the
    updater builds a new object.  The present document is an object whose
    property list [props] is in enumeration order. *)
Theorem unchanged_settings_absorbed (s : session)
  (props : list (string * value)) (newSettings : value) :
  present (hist s) = JObj props ->
  spread [] (JObj props) = props ->
  (forall k v, In (k, v) (own_props newSettings) -> lookup k props = Some v) ->
  setHistory (setState (applySettings newSettings)) s = s
  /\ (forall k v, lookup k props = Some v ->
        setHistory (setState (setField k v)) s = s).
Proof.
  intros Hp Hcopy Hsame. split.
  - apply setHistory_fixed, setState_same. simpl. rewrite Hp, Hcopy.
    unfold spread. rewrite (define_all_same _ _ Hsame). reflexivity.
  - intros k v Hk.
    apply setHistory_fixed, setState_same. simpl. rewrite Hp, Hcopy.
    rewrite (define_same k v props Hk). reflexivity.
Qed.

Lemma unchanged_settings_absorbed_witness :
  let s := useHistoryState DEFAULT_DESIGN None in
  setHistory
    (setState (applySettings
                 (JObj [("gridGap"%string, JNum 24);
                        ("darkMode"%string, JBool true)]))) s = s
  /\ setHistory (setState (setField "primaryColor" (JStr "#3b82f6"))) s = s.
Proof.
  intros s.
  destruct (unchanged_settings_absorbed s (own_props DEFAULT_DESIGN)
              (JObj [("gridGap"%string, JNum 24);
                     ("darkMode"%string, JBool true)])
              eq_refl eq_refl) as [Hcall Hfield].
  - intros k v [E | [E | []]]; injection E as <- <-; reflexivity.
  - split; [ exact Hcall | apply Hfield; reflexivity ].
Defined.

(** X6.  A tool call or a control that sets fields the document already
    has changes their values and nothing else: the new document has the
    same keys in the same order, each set key reads as set and every other
    key reads as before.  The present document is an object whose property
    list [props] is in enumeration order, and the settings [ps] name each
    key once. *)
Theorem settings_keep_keys (props ps : list (string * value)) :
  spread [] (JObj props) = props ->
  NoDup (keys ps) ->
  (forall k, In k (keys ps) -> In k (keys props)) ->
  exists props',
    resolve (applySettings (JObj ps)) (JObj props) = JObj props'
    /\ keys props' = keys props
    /\ forall k,
         lookup k props'
         = match lookup k ps with Some v => Some v | None => lookup k props end.
Proof.
  intros Hcopy Hnd Hin.
  exists (define_all ps props). simpl. rewrite Hcopy. unfold spread. simpl.
  split; [ reflexivity | split ].
  - apply define_all_keys. exact Hin.
  - intros k. apply lookup_define_all. exact Hnd.
Qed.

Lemma settings_keep_keys_witness :
  exists props',
    resolve (applySettings (JObj [("gridColumns"%string, JNum 4)])) DEFAULT_DESIGN
    = JObj props'
    /\ keys props' = keys (own_props DEFAULT_DESIGN)
    /\ forall k,
         lookup k props'
         = match lookup k [("gridColumns"%string, JNum 4)] with
           | Some v => Some v
           | None => lookup k (own_props DEFAULT_DESIGN)
           end.
Proof.
  apply (settings_keep_keys (own_props DEFAULT_DESIGN)
           [("gridColumns"%string, JNum 4)] eq_refl).
  - repeat constructor. simpl. tauto.
  - intros k [<- | []]. simpl. tauto.
Defined.

(** ** What the formatted-text renderer keeps and what it styles *)

Lemma chars_append (a b : string) : chars (a ++ b)%string = chars a ++ chars b.
Proof.
  induction a as [ | c a IH ]; simpl; [ reflexivity | ].
  unfold chars in *. rewrite IH. reflexivity.
Qed.






Lemma slice_inner (l : list ascii) (n : nat) :
  1 <= n -> n <= List.length l ->
  slice l (Z.of_nat n) (- Z.of_nat n)
  = firstn (List.length l - n - n) (skipn n l).
Proof.
  intros H1 Hn. unfold slice.
  replace (Z.of_nat n <? 0)%Z with false by (symmetry; apply Z.ltb_ge; lia).
  replace (- Z.of_nat n <? 0)%Z with true by (symmetry; apply Z.ltb_lt; lia).
  rewrite Z.min_l by lia. rewrite Nat2Z.id.
  f_equal. lia.
Qed.




Lemma strip_prefix_app (p l : list ascii) : strip_prefix p (p ++ l) = Some l.
Proof.
  induction p as [ | a p IH ]; [ reflexivity | ].
  change ((a :: p) ++ l) with (a :: (p ++ l)). cbn [strip_prefix].
  rewrite Ascii.eqb_refl. exact IH.
Qed.

Lemma strip_prefix_star (d rest : list ascii) (x : ascii) :
  x <> "*"%char -> strip_prefix ("*"%char :: d) (x :: rest) = None.
Proof.
  intros Hx. cbn [strip_prefix].
  replace (Ascii.eqb "*" x) with false; [ reflexivity | ].
  symmetry. apply Ascii.eqb_neq. congruence.
Qed.

(** A run without asterisk and without line break is what [.*?] takes
    before the closing delimiter. *)
Lemma lazy_until_run (d c b : list ascii) :
  ~ In "*"%char c ->
  (forall x, In x c -> is_line_terminator x = false) ->
  lazy_until ("*"%char :: d) (c ++ ("*"%char :: d) ++ b) = Some (c, b).
Proof.
  intros Hstar Hline.
  induction c as [ | x c IH ].
  - change (lazy_until ("*"%char :: d) (("*"%char :: d) ++ b) = Some ([], b)).
    destruct (("*"%char :: d) ++ b) eqn:E; [ discriminate E | ].
    unfold lazy_until. rewrite <- E, strip_prefix_app. reflexivity.
  - change ((x :: c) ++ ("*"%char :: d) ++ b)
      with (x :: (c ++ ("*"%char :: d) ++ b)).
    unfold lazy_until. fold lazy_until.
    rewrite strip_prefix_star
      by (intros ->; apply Hstar; left; reflexivity).
    rewrite (Hline x) by (left; reflexivity).
    rewrite IH.
    + reflexivity.
    + intros H. apply Hstar. right. exact H.
    + intros y Hy. apply Hline. right. exact Hy.
Qed.

Lemma match_at_bold (c b : list ascii) :
  ~ In "*"%char c ->
  (forall x, In x c -> is_line_terminator x = false) ->
  match_at (chars "**" ++ c ++ chars "**" ++ b)
  = Some (chars "**" ++ c ++ chars "**", b).
Proof.
  intros Hstar Hline. unfold match_at, delimited.
  rewrite strip_prefix_app.
  change (chars "**") with ("*"%char :: ["*"%char]).
  rewrite (lazy_until_run ["*"%char] c b Hstar Hline). reflexivity.
Qed.

Lemma match_at_italic (x : ascii) (c b : list ascii) :
  ~ In "*"%char (x :: c) ->
  (forall y, In y (x :: c) -> is_line_terminator y = false) ->
  match_at (chars "*" ++ (x :: c) ++ chars "*" ++ b)
  = Some (chars "*" ++ (x :: c) ++ chars "*", b).
Proof.
  intros Hstar Hline. unfold match_at, delimited.
  assert (Hx : x <> "*"%char) by (intros ->; apply Hstar; left; reflexivity).
  change (strip_prefix (chars "**") (chars "*" ++ (x :: c) ++ chars "*" ++ b))
    with (strip_prefix ["*"%char] (x :: c ++ chars "*" ++ b)).
  rewrite (strip_prefix_star [] _ x Hx).
  rewrite strip_prefix_app.
  change (chars "*") with ["*"%char].
  rewrite (lazy_until_run [] (x :: c) b Hstar Hline). reflexivity.
Qed.

Lemma split_loop_skip (a piece l : list ascii) (fuel : nat) :
  ~ In "*"%char a ->
  split_loop (List.length a + fuel) piece (a ++ l)
  = split_loop fuel (piece ++ a) l.
Proof.
  revert piece.
  induction a as [ | x a IH ]; intros piece Hstar.
  - simpl. rewrite app_nil_r. reflexivity.
  - assert (Hx : Ascii.eqb "*" x = false).
    { apply Ascii.eqb_neq. intros <-. apply Hstar. left. reflexivity. }
    change (split_loop (S (List.length a + fuel)) piece (x :: (a ++ l))
            = split_loop fuel (piece ++ x :: a) l).
    cbn [split_loop]. rewrite (match_at_other x _ Hx).
    rewrite IH by (intros H; apply Hstar; right; exact H).
    rewrite <- app_assoc. reflexivity.
Qed.

(** The parts of a text with one delimited run [m] between two stretches
    without asterisk. *)
Lemma split_one_match (a m b : list ascii) :
  ~ In "*"%char a -> ~ In "*"%char b ->
  m <> [] -> match_at (m ++ b) = Some (m, b) ->
  split (a ++ m ++ b) = [a; m; b].
Proof.
  intros Ha Hb Hm Hmatch. unfold split.
  rewrite length_app.
  replace (S (List.length a + List.length (m ++ b)))
    with (List.length a + S (List.length (m ++ b))) by lia.
  rewrite (split_loop_skip a [] (m ++ b) _ Ha). simpl app at 1.
  destruct (m ++ b) as [ | x rest ] eqn:E.
  - destruct m; [ contradiction | discriminate E ].
  - cbn [split_loop]. rewrite Hmatch.
    rewrite split_loop_plain; [ reflexivity | | exact Hb ].
    apply (f_equal (@List.length ascii)) in E.
    rewrite length_app in E. simpl in *.
    destruct m; [ contradiction | simpl in E; lia ].
Qed.

Lemma render_part_plain (primary secondary : string) (a : list ascii) :
  ~ In "*"%char a -> render_part primary secondary a = Plain (text a).
Proof.
  intros Ha. unfold render_part, startsWith.
  destruct a as [ | x a ]; [ reflexivity | ].
  assert (Hx : x <> "*"%char) by (intros ->; apply Ha; left; reflexivity).
  change (chars "**") with ("*"%char :: ["*"%char]).
  change (chars "*") with ["*"%char].
  rewrite !(strip_prefix_star _ _ x Hx). reflexivity.
Qed.

Lemma endsWith_app (l p : list ascii) : endsWith (l ++ p) p = true.
Proof.
  unfold endsWith, startsWith.
  rewrite rev_app_distr, strip_prefix_app. reflexivity.
Qed.

Lemma render_part_bold (primary secondary : string) (c : list ascii) :
  render_part primary secondary (chars "**" ++ c ++ chars "**")
  = Strong primary (text c).
Proof.
  unfold render_part.
  replace (startsWith (chars "**" ++ c ++ chars "**") (chars "**")) with true
    by (unfold startsWith; rewrite strip_prefix_app; reflexivity).
  rewrite app_assoc, endsWith_app. simpl andb.
  change (slice ((chars "**" ++ c) ++ chars "**") 2 (-2))
    with (slice ((chars "**" ++ c) ++ chars "**") (Z.of_nat 2) (- Z.of_nat 2)).
  rewrite slice_inner by (rewrite ?length_app; simpl; lia).
  rewrite <- app_assoc.
  change (skipn 2 (chars "**" ++ c ++ chars "**")) with (c ++ chars "**").
  rewrite !length_app.
  replace (List.length (chars "**") + (List.length c + List.length (chars "**"))
           - 2 - 2) with (List.length c + 0) by (simpl; lia).
  rewrite firstn_app_2. simpl. rewrite app_nil_r. reflexivity.
Qed.

Lemma render_part_italic (primary secondary : string) (x : ascii)
  (c : list ascii) :
  x <> "*"%char ->
  render_part primary secondary (chars "*" ++ (x :: c) ++ chars "*")
  = Em secondary (text (x :: c)).
Proof.
  intros Hx. unfold render_part.
  replace (startsWith (chars "*" ++ (x :: c) ++ chars "*") (chars "**"))
    with false.
  - replace (startsWith (chars "*" ++ (x :: c) ++ chars "*") (chars "*"))
      with true by reflexivity.
    rewrite app_assoc, endsWith_app. simpl andb.
    change (slice ((chars "*" ++ x :: c) ++ chars "*") 1 (-1))
      with (slice ((chars "*" ++ x :: c) ++ chars "*")
              (Z.of_nat 1) (- Z.of_nat 1)).
    rewrite slice_inner by (rewrite ?length_app; simpl; lia).
    rewrite <- app_assoc.
    change (skipn 1 (chars "*" ++ (x :: c) ++ chars "*"))
      with ((x :: c) ++ chars "*").
    rewrite !length_app.
    replace (List.length (chars "*")
             + (List.length (x :: c) + List.length (chars "*")) - 1 - 1)
      with (List.length (x :: c) + 0) by (simpl; lia).
    rewrite firstn_app_2. simpl firstn. rewrite app_nil_r. reflexivity.
  - unfold startsWith.
    change (strip_prefix (chars "**") (chars "*" ++ (x :: c) ++ chars "*"))
      with (strip_prefix ["*"%char] (x :: c ++ chars "*")).
    rewrite (strip_prefix_star [] _ x Hx). reflexivity.
Qed.

Lemma text_nonempty (a m b : list ascii) :
  m <> [] -> exists c s, text (a ++ m ++ b) = String c s.
Proof.
  intros Hm. destruct a as [ | x a ]; simpl.
  - destruct m as [ | y m ]; [ contradiction | ]. simpl. eauto.
  - eauto.
Qed.

(** X8.  A bold or an italic run between two stretches of plain text is
    rendered as three segments: with [a], [b] and [c] free of asterisks and
    [c] free of line breaks, the text [a**c**b] gives the plain [a], [c] in
    bold in the primary colour and the plain [b]; and, when [c] is not
    empty, the text [a*c*b] gives the plain [a], [c] in italics in the
    secondary colour and the plain [b]. *)
Theorem render_styled_run (a c b : list ascii) (primary secondary : string) :
  ~ In "*"%char a -> ~ In "*"%char b -> ~ In "*"%char c ->
  (forall x, In x c -> is_line_terminator x = false) ->
  renderFormattedText (text (a ++ (chars "**" ++ c ++ chars "**") ++ b))
    primary secondary
  = Some [Plain (text a); Strong primary (text c); Plain (text b)]
  /\ (c <> [] ->
      renderFormattedText (text (a ++ (chars "*" ++ c ++ chars "*") ++ b))
        primary secondary
      = Some [Plain (text a); Em secondary (text c); Plain (text b)]).
Proof.
  intros Ha Hb Hc Hline. split.
  - destruct (text_nonempty a (chars "**" ++ c ++ chars "**") b)
      as (x & s & E); [ discriminate | ].
    unfold renderFormattedText. rewrite E, <- E, chars_text.
    rewrite split_one_match; try assumption; try discriminate.
    + cbn [map].
      rewrite (render_part_plain _ _ a Ha), (render_part_plain _ _ b Hb).
      rewrite render_part_bold. reflexivity.
    + rewrite <- !app_assoc. apply match_at_bold; assumption.
  - intros Hne. destruct c as [ | y c ]; [ contradiction | ].
    assert (Hy : y <> "*"%char) by (intros ->; apply Hc; left; reflexivity).
    destruct (text_nonempty a (chars "*" ++ (y :: c) ++ chars "*") b)
      as (x & s & E); [ discriminate | ].
    unfold renderFormattedText. rewrite E, <- E, chars_text.
    rewrite split_one_match; try assumption; try discriminate.
    + cbn [map].
      rewrite (render_part_plain _ _ a Ha), (render_part_plain _ _ b Hb).
      rewrite render_part_italic by exact Hy. reflexivity.
    + rewrite <- !app_assoc. apply match_at_italic; assumption.
Qed.

Lemma render_styled_run_witness :
  renderFormattedText "Build Your **Next Idea**" "#3b82f6" "#10b981"
  = Some [Plain "Build Your "; Strong "#3b82f6" "Next Idea"; Plain ""]
  /\ renderFormattedText "so *very* fast" "#3b82f6" "#10b981"
     = Some [Plain "so "; Em "#10b981" "very"; Plain " fast"].
Proof.
  split.
  - apply (proj1 (render_styled_run (chars "Build Your ") (chars "Next Idea") []
                    "#3b82f6" "#10b981"
                    ltac:(simpl; intuition discriminate)
                    ltac:(simpl; tauto)
                    ltac:(simpl; intuition discriminate)
                    ltac:(simpl; intros x Hx;
                          repeat (destruct Hx as [<- | Hx]; [ reflexivity | ]);
                          contradiction))).
  - apply (proj2 (render_styled_run (chars "so ") (chars "very") (chars " fast")
                    "#3b82f6" "#10b981"
                    ltac:(simpl; intuition discriminate)
                    ltac:(simpl; intuition discriminate)
                    ltac:(simpl; intuition discriminate)
                    ltac:(simpl; intros x Hx;
                          repeat (destruct Hx as [<- | Hx]; [ reflexivity | ]);
                          contradiction))).
    discriminate.
Defined.

(** ** What a key press can do to the history *)

Lemma hist_setHistory (f : history -> history) (s : session) :
  hist (setHistory f s) = f (hist s).
Proof.
  unfold setHistory.
  destruct (history_eqb (f (hist s)) (hist s)) eqn:E.
  - apply history_eqb_eq in E. symmetry. exact E.
  - destruct (value_eqb (present (f (hist s))) (present (hist s)));
      reflexivity.
Qed.

(** X9.  The key handler calls [preventDefault] exactly for [z] and [y]
    with the control or the command modifier held; an event for which it
    does not leaves the session as it was; and no event at all loses,
    adds or reorders a document of the history: the chronological list of
    documents after the event is the one before it. *)
Theorem keydown_conserves (e : KeyboardEvent) (s : session) :
  fst (keydown e s)
  = (ctrlKey e || metaKey e)
    && (String.eqb (key e) "z" || String.eqb (key e) "y")
  /\ timeline (hist (snd (keydown e s))) = timeline (hist s)
  /\ (fst (keydown e s) = false -> snd (keydown e s) = s).
Proof.
  unfold keydown, handleKeyDown.
  destruct (ctrlKey e || metaKey e); [ | repeat split ].
  destruct (String.eqb (key e) "z").
  - destruct (shiftKey e); cbn [fst snd andb orb].
    + rewrite guarded_redo, hist_setHistory, redo_timeline.
      repeat split. discriminate.
    + rewrite guarded_undo, hist_setHistory, undo_timeline.
      repeat split. discriminate.
  - destruct (String.eqb (key e) "y"); cbn [fst snd andb orb].
    + rewrite guarded_redo, hist_setHistory, redo_timeline.
      repeat split. discriminate.
    + repeat split.
Qed.

Lemma keydown_conserves_witness :
  let s := setHistory (setState (NewValue Samples.four_columns))
             (useHistoryState DEFAULT_DESIGN None) in
  fst (keydown (mkKey true false false "z") s) = true
  /\ timeline (hist (snd (keydown (mkKey true false false "z") s)))
     = [DEFAULT_DESIGN; Samples.four_columns]
  /\ snd (keydown (mkKey false false false "z") s) = s.
Proof.
  intros s.
  destruct (keydown_conserves (mkKey true false false "z") s)
    as (Hfst & Htime & _).
  destruct (keydown_conserves (mkKey false false false "z") s)
    as (_ & _ & Hkeep).
  split; [ exact Hfst | ].
  split; [ exact Htime | ].
  apply Hkeep. reflexivity.
Defined.

(** ** The cells of the preview grids *)

Lemma array_slice_prefix {A : Type} (l : list A) (stop : Z) :
  array_slice l 0 stop
  = firstn (Z.to_nat (if Z.ltb stop 0
                      then Z.of_nat (List.length l) + stop else stop)) l.
Proof.
  unfold array_slice. cbv zeta.
  change (Z.ltb 0 0) with false. cbv iota.
  replace (Z.min 0 (Z.of_nat (List.length l))) with 0%Z by lia.
  change (Z.to_nat 0) with 0. cbn [skipn].
  rewrite Z.sub_0_r.
  destruct (Z.ltb_spec stop 0) as [Hneg | Hpos].
  - f_equal. lia.
  - destruct (Z.le_gt_cases stop (Z.of_nat (List.length l))) as [Hin | Hout].
    + f_equal. lia.
    + replace (Z.min stop (Z.of_nat (List.length l)))
        with (Z.of_nat (List.length l)) by lia.
      rewrite Nat2Z.id, firstn_all.
      symmetry. apply firstn_all2. lia.
Qed.

(** X10.  The landing layout never draws fewer than three feature cards:
    whatever number of columns the document holds, the cards are the first
    three for fewer than four columns and all four otherwise. *)
Theorem landing_cards_floor (gridColumns : Z) :
  landing_cards gridColumns
  = if Z.ltb gridColumns 4 then [1; 2; 3]%Z else [1; 2; 3; 4]%Z.
Proof.
  unfold landing_cards. rewrite array_slice_prefix.
  destruct (Z.ltb_spec (Z.max 3 gridColumns) 0) as [H | _]; [ lia | ].
  destruct (Z.ltb_spec gridColumns 4) as [Hlt | Hge].
  - replace (Z.max 3 gridColumns) with 3%Z by lia. reflexivity.
  - apply firstn_all2. simpl List.length. lia.
Qed.

(** X11.  The shop layout draws the first [2 * gridColumns] of its eight
    products when the number of columns is not negative (all eight from
    four columns on); for a negative number of columns the slice counts
    from the end, so that the first [8 + 2 * gridColumns] products are
    drawn, which is none only from minus four columns down. *)
Theorem ecommerce_products_prefix (gridColumns : Z) :
  (0 <= gridColumns ->
     ecommerce_products gridColumns
     = firstn (Z.to_nat (2 * gridColumns)) [1; 2; 3; 4; 5; 6; 7; 8]%Z)%Z
  /\ (gridColumns < 0 ->
     ecommerce_products gridColumns
     = firstn (Z.to_nat (8 + 2 * gridColumns)) [1; 2; 3; 4; 5; 6; 7; 8]%Z)%Z.
Proof.
  unfold ecommerce_products. rewrite array_slice_prefix.
  split; intros Hg.
  - destruct (Z.ltb_spec (gridColumns * 2) 0) as [H | _]; [ lia | ].
    f_equal. lia.
  - destruct (Z.ltb_spec (gridColumns * 2) 0) as [_ | H]; [ | lia ].
    f_equal. simpl List.length. lia.
Qed.

Lemma ecommerce_products_prefix_witness :
  ecommerce_products 3 = [1; 2; 3; 4; 5; 6]%Z
  /\ ecommerce_products (-1) = [1; 2; 3; 4; 5; 6]%Z.
Proof.
  split.
  - apply (proj1 (ecommerce_products_prefix 3)). lia.
  - apply (proj2 (ecommerce_products_prefix (-1))). lia.
Defined.

(** ** The save indicator *)

Section Indicator.
Import SaveIndicator.

Lemma setIsSaved_same (b : bool) (i : indicator) :
  isSaved i = b -> setIsSaved b i = i.
Proof.
  intros <-. unfold setIsSaved. rewrite Bool.eqb_reflx. reflexivity.
Qed.

Lemma tick_idle (f : bool) :
  tick (mkIndicator false f None None) = mkIndicator false f None None.
Proof. reflexivity. Qed.

Lemma tick_saving (f : bool) (r : nat) :
  tick (mkIndicator false f (Some (S (S r))) None)
  = mkIndicator false f (Some (S r)) None.
Proof. reflexivity. Qed.

Lemma tick_saved (f : bool) :
  tick (mkIndicator false f (Some 1) None)
  = mkIndicator true f None (Some HIDE_DELAY).
Proof. reflexivity. Qed.

Lemma tick_showing (f : bool) (r : nat) :
  tick (mkIndicator true f None (Some (S (S r))))
  = mkIndicator true f None (Some (S r)).
Proof. reflexivity. Qed.

Lemma tick_hidden (f : bool) :
  tick (mkIndicator true f None (Some 1)) = mkIndicator false f None None.
Proof. reflexivity. Qed.

Lemma phase_change (i : indicator) :
  phase i -> designChanged i = mkIndicator false false (Some SAVE_DELAY) None.
Proof. intros [ | r Hr | r Hr ]; reflexivity. Qed.

Lemma phase_tick (i : indicator) : phase i -> phase (tick i).
Proof.
  intros [ | r Hr | r Hr ].
  - rewrite tick_idle. constructor.
  - destruct r as [ | r ].
    + rewrite tick_saved. apply phase_showing. unfold HIDE_DELAY. lia.
    + rewrite tick_saving. apply phase_saving. lia.
  - destruct r as [ | r ].
    + rewrite tick_hidden. constructor.
    + rewrite tick_showing. apply phase_showing. lia.
Qed.

Lemma reachable_phase (i : indicator) : reachable i -> phase i.
Proof.
  induction 1 as [ | i _ IH | i _ IH ].
  - constructor.
  - rewrite (phase_change i IH). apply phase_saving. unfold SAVE_DELAY. lia.
  - apply phase_tick. exact IH.
Qed.

Lemma reachable_quiet (n : nat) (i : indicator) :
  reachable i -> reachable (quiet n i).
Proof.
  intros Hi. unfold quiet.
  induction n as [ | n IH ]; [ exact Hi | ].
  cbn [Nat.iter nat_rect]. apply reach_tick. exact IH.
Qed.

(** X12.  At every moment after the mount, whatever the edits and the
    time between them: the message is shown exactly while the timer that
    hides it is armed; while the message is shown no save is pending; and
    an armed timer has between one millisecond and its full delay left. *)
Theorem indicator_invariant (i : indicator) :
  reachable i ->
  isFirstRender i = false
  /\ (isSaved i = true <-> hideTimer i <> None)
  /\ (isSaved i = true -> saveTimer i = None)
  /\ (forall n, saveTimer i = Some n -> 1 <= n <= SAVE_DELAY)
  /\ (forall n, hideTimer i = Some n -> 1 <= n <= HIDE_DELAY).
Proof.
  intros Hr. apply reachable_phase in Hr.
  destruct Hr as [ | r Hr | r Hr ]; cbn [isFirstRender isSaved hideTimer saveTimer].
  - repeat split; try discriminate. intros H. contradiction.
  - repeat split; try discriminate; try (intros H; contradiction);
      match goal with H : Some _ = Some _ |- _ => injection H as <- end; lia.
  - repeat split; try discriminate;
      match goal with H : Some _ = Some _ |- _ => injection H as <- end; lia.
Qed.

Lemma indicator_invariant_witness :
  let i := quiet 1500 (designChanged (designChanged initial)) in
  isSaved i = true /\ saveTimer i = None /\ hideTimer i = Some 1500.
Proof.
  intros i.
  destruct (indicator_invariant i
              (reachable_quiet 1500 _ (reach_change _ reach_mount)))
    as (_ & _ & Hsave & _).
  split; [ vm_compute; reflexivity | ].
  split; [ apply Hsave; vm_compute; reflexivity | vm_compute; reflexivity ].
Defined.

(** The indicator [n] milliseconds after an edit. *)
Lemma quiet_after_change (n : nat) :
  quiet n (mkIndicator false false (Some SAVE_DELAY) None)
  = if Nat.ltb n SAVE_DELAY
    then mkIndicator false false (Some (SAVE_DELAY - n)) None
    else if Nat.ltb n (SAVE_DELAY + HIDE_DELAY)
         then mkIndicator true false None (Some (SAVE_DELAY + HIDE_DELAY - n))
         else mkIndicator false false None None.
Proof.
  unfold quiet.
  induction n as [ | n IH ]; [ reflexivity | ].
  cbn [Nat.iter nat_rect]. unfold Nat.iter in IH. rewrite IH. clear IH.
  generalize SAVE_DELAY HIDE_DELAY
    (eq_refl : Nat.ltb 0 SAVE_DELAY = true)
    (eq_refl : Nat.ltb 0 HIDE_DELAY = true)
    tick_saved.
  intros sd hd Hsd Hhd Hfire.
  apply Nat.ltb_lt in Hsd, Hhd.
  destruct (Nat.ltb_spec n sd) as [H1 | H1].
  - destruct (Nat.ltb_spec (S n) sd) as [H2 | H2].
    + replace (sd - n) with (S (S (sd - S (S n)))) by lia.
      rewrite tick_saving. do 2 f_equal. lia.
    + replace (sd - n) with 1 by lia.
      rewrite Hfire.
      destruct (Nat.ltb_spec (S n) (sd + hd)) as [H3 | H3]; [ | lia ].
      do 2 f_equal. lia.
  - destruct (Nat.ltb_spec (S n) sd) as [H2 | _]; [ lia | ].
    destruct (Nat.ltb_spec n (sd + hd)) as [H3 | H3].
    + destruct (Nat.ltb_spec (S n) (sd + hd)) as [H4 | H4].
      * replace (sd + hd - n) with (S (S (sd + hd - S (S n)))) by lia.
        rewrite tick_showing. do 2 f_equal. lia.
      * replace (sd + hd - n) with 1 by lia. apply tick_hidden.
    + destruct (Nat.ltb_spec (S n) (sd + hd)) as [H4 | _]; [ lia | ].
      apply tick_idle.
Qed.

(** X13.  The message follows the last edit only: whatever happened
    before an edit, the message is hidden during the first second that
    follows it, shown during the two seconds after that, and hidden from
    then on. *)
Theorem saved_message_window (i : indicator) (n : nat) :
  reachable i ->
  isSaved (quiet n (designChanged i))
  = Nat.leb SAVE_DELAY n && Nat.ltb n (SAVE_DELAY + HIDE_DELAY).
Proof.
  intros Hr. rewrite (phase_change i (reachable_phase i Hr)).
  rewrite quiet_after_change.
  generalize SAVE_DELAY (SAVE_DELAY + HIDE_DELAY). intros a b.
  destruct (Nat.ltb_spec n a) as [H | H].
  - destruct (Nat.leb_spec a n) as [H' | _]; [ lia | reflexivity ].
  - destruct (Nat.leb_spec a n) as [_ | H']; [ | lia ].
    destruct (Nat.ltb n b); reflexivity.
Qed.

Lemma saved_message_window_witness :
  let i := quiet 1200 (designChanged (designChanged initial)) in
  isSaved i = true
  /\ isSaved (quiet 999 (designChanged i)) = false
  /\ isSaved (quiet 1000 (designChanged i)) = true
  /\ isSaved (quiet 2999 (designChanged i)) = true
  /\ isSaved (quiet 3000 (designChanged i)) = false.
Proof.
  intros i.
  assert (Hr : reachable i)
    by exact (reachable_quiet 1200 _ (reach_change _ reach_mount)).
  split; [ vm_compute; reflexivity | ].
  split; [ exact (saved_message_window i 999 Hr) | ].
  split; [ exact (saved_message_window i 1000 Hr) | ].
  split; [ exact (saved_message_window i 2999 Hr)
         | exact (saved_message_window i 3000 Hr) ].
Defined.

(** X14.  Edits that follow each other by less than a second never let
    the message appear: through a burst of such edits the indicator comes
    back, at each edit, to the hidden state with a full second to wait,
    and it is hidden at every millisecond in between. *)
Theorem burst_debounced (i : indicator) (gaps : list nat) (g n : nat) :
  reachable i ->
  Forall (fun d => d < SAVE_DELAY) (gaps ++ [g]) ->
  n <= g ->
  burst gaps (designChanged i) = mkIndicator false false (Some SAVE_DELAY) None
  /\ isSaved (quiet n (burst gaps (designChanged i))) = false.
Proof.
  intros Hr Hall Hn.
  apply Forall_app in Hall. destruct Hall as [Hgaps Hg].
  apply Forall_inv in Hg.
  assert (E : burst gaps (designChanged i)
              = mkIndicator false false (Some SAVE_DELAY) None).
  { apply reachable_phase in Hr. rewrite (phase_change i Hr). clear i Hr.
    induction Hgaps as [ | d gaps Hd _ IH ]; [ reflexivity | ].
    cbn [burst]. rewrite quiet_after_change.
    apply Nat.ltb_lt in Hd. rewrite Hd. exact IH. }
  split; [ exact E | ].
  rewrite E, quiet_after_change.
  replace (Nat.ltb n SAVE_DELAY) with true; [ reflexivity | ].
  symmetry. apply Nat.ltb_lt. lia.
Qed.

Lemma burst_debounced_witness :
  burst [300; 999; 0] (designChanged (designChanged initial))
  = mkIndicator false false (Some SAVE_DELAY) None
  /\ isSaved (quiet 999
               (burst [300; 999; 0] (designChanged (designChanged initial))))
     = false.
Proof.
  apply (burst_debounced (designChanged initial) [300; 999; 0] 999 999
           reach_mount).
  - repeat constructor; unfold SAVE_DELAY; lia.
  - lia.
Defined.

(** X15.  Mounting the playground alone never shows the message: after
    the first render, with no edit, the indicator stays hidden and no
    timer is ever armed. *)
Theorem mount_shows_nothing (n : nat) :
  quiet n (designChanged initial) = mkIndicator false false None None.
Proof.
  unfold quiet. induction n as [ | n IH ]; [ reflexivity | ].
  cbn [Nat.iter nat_rect]. unfold Nat.iter in IH. rewrite IH.
  apply tick_idle.
Qed.

End Indicator.

(** ** The paragraphs of a chat message *)

Section Paragraphs.
Import Chat GeminiService.

Lemma split_acc_cons (sep : ascii) (piece l : list ascii) :
  exists p rest, split_acc sep piece l = p :: rest.
Proof.
  revert piece. induction l as [ | c l IH ]; intros piece; cbn [split_acc].
  - eauto.
  - destruct (Ascii.eqb c sep); [ eauto | apply IH ].
Qed.

Lemma join_with_cons (sep : ascii) (p q : list ascii)
  (rest : list (list ascii)) :
  join_with sep (p :: q :: rest) = p ++ sep :: join_with sep (q :: rest).
Proof. reflexivity. Qed.

Lemma join_split_acc (sep : ascii) (piece l : list ascii) :
  join_with sep (split_acc sep piece l) = piece ++ l.
Proof.
  revert piece. induction l as [ | c l IH ]; intros piece; cbn [split_acc].
  - cbn [join_with]. rewrite app_nil_r. reflexivity.
  - destruct (Ascii.eqb_spec c sep) as [-> | Hc].
    + destruct (split_acc_cons sep [] l) as (q & rest & E).
      rewrite E, join_with_cons, <- E, IH. reflexivity.
    + rewrite IH, <- app_assoc. reflexivity.
Qed.

Lemma length_split_acc (sep : ascii) (piece l : list ascii) :
  List.length (split_acc sep piece l) = S (count_occ ascii_dec l sep).
Proof.
  revert piece. induction l as [ | c l IH ]; intros piece; cbn [split_acc].
  - reflexivity.
  - destruct (Ascii.eqb_spec c sep) as [-> | Hc].
    + rewrite count_occ_cons_eq by reflexivity.
      cbn [List.length]. rewrite IH. reflexivity.
    + rewrite count_occ_cons_neq by exact Hc. apply IH.
Qed.

Lemma split_acc_clean (sep : ascii) (piece l : list ascii) :
  ~ In sep piece -> Forall (fun p => ~ In sep p) (split_acc sep piece l).
Proof.
  revert piece. induction l as [ | c l IH ]; intros piece Hp; cbn [split_acc].
  - constructor; [ exact Hp | constructor ].
  - destruct (Ascii.eqb_spec c sep) as [-> | Hc].
    + constructor; [ exact Hp | ]. apply IH. intros [].
    + apply IH. intros H. apply in_app_or in H.
      destruct H as [H | [H | []]]; [ exact (Hp H) | exact (Hc H) ].
Qed.

Lemma split_acc_plain (sep : ascii) (piece l : list ascii) :
  ~ In sep l -> split_acc sep piece l = [piece ++ l].
Proof.
  revert piece. induction l as [ | c l IH ]; intros piece Hl; cbn [split_acc].
  - rewrite app_nil_r. reflexivity.
  - destruct (Ascii.eqb_spec c sep) as [-> | Hc].
    + exfalso. apply Hl. left. reflexivity.
    + rewrite IH by (intros H; apply Hl; right; exact H).
      rewrite <- app_assoc. reflexivity.
Qed.

Lemma split_acc_app (sep : ascii) (piece a l : list ascii) :
  ~ In sep a ->
  split_acc sep piece (a ++ sep :: l) = (piece ++ a) :: split_acc sep [] l.
Proof.
  revert piece. induction a as [ | c a IH ]; intros piece Ha.
  - cbn [app split_acc]. rewrite Ascii.eqb_refl, app_nil_r. reflexivity.
  - change ((c :: a) ++ sep :: l) with (c :: (a ++ sep :: l)).
    cbn [split_acc].
    destruct (Ascii.eqb_spec c sep) as [-> | Hc].
    + exfalso. apply Ha. left. reflexivity.
    + rewrite IH by (intros H; apply Ha; right; exact H).
      rewrite <- app_assoc. reflexivity.
Qed.

(** X16.  The paragraphs the chat view draws for a message lose nothing of
    it: joined again with line feeds they give the message back; there is
    one paragraph more than there are line feeds in the message; and no
    paragraph contains a line feed. *)
Theorem paragraphs_partition (msg : string) :
  join_with newline (map chars (paragraphs msg)) = chars msg
  /\ List.length (paragraphs msg)
     = S (count_occ ascii_dec (chars msg) newline)
  /\ Forall (fun p => ~ In newline (chars p)) (paragraphs msg).
Proof.
  unfold paragraphs, split_on.
  rewrite map_map, length_map.
  split; [ | split ].
  - rewrite (map_ext _ (fun p => p)) by (intros p; apply chars_text).
    rewrite map_id. apply join_split_acc.
  - apply length_split_acc.
  - apply Forall_map.
    apply (Forall_impl _ (P := fun p => ~ In newline p)).
    + intros p Hp. rewrite chars_text. exact Hp.
    + apply split_acc_clean. intros [].
Qed.

(** ** The image sent back for editing *)

Lemma cleanBase64_split (header data : string) :
  ~ In ","%char (chars header) -> ~ In ","%char (chars data) ->
  cleanBase64 (header ++ "," ++ data)
  = (if String.eqb data "" then header ++ "," else data)%string.
Proof.
  intros Hh Hd. unfold cleanBase64, split_on.
  rewrite chars_append.
  change (chars ("," ++ data)) with (","%char :: chars data).
  rewrite (split_acc_app _ [] _ _ Hh).
  rewrite (split_acc_plain _ [] _ Hd).
  cbn [nth_error app].
  destruct data as [ | c d ].
  - reflexivity.
  - cbn [chars list_ascii_of_string String.eqb].
    change (text (c :: list_ascii_of_string d))
      with (String c (text (chars d))).
    rewrite text_chars. reflexivity.
Qed.

(** X17.  [editImage] strips the header of a data URL and nothing else: a
    text without comma is sent as it is; of a text with a comma-free
    header, a comma and a non-empty comma-free payload the payload alone
    is sent; and when the payload is empty the whole text, header
    included, is sent. *)
Theorem cleanBase64_payload (header data : string) :
  ~ In ","%char (chars header) -> ~ In ","%char (chars data) ->
  cleanBase64 data = data
  /\ cleanBase64 (header ++ "," ++ data)
     = (if String.eqb data "" then header ++ "," else data)%string.
Proof.
  intros Hh Hd. split.
  - unfold cleanBase64, split_on.
    rewrite (split_acc_plain _ [] _ Hd). reflexivity.
  - apply cleanBase64_split; assumption.
Qed.

Lemma cleanBase64_payload_witness :
  cleanBase64 "iVBORw0KGgo=" = "iVBORw0KGgo="%string
  /\ cleanBase64 "data:image/jpeg;base64,iVBORw0KGgo=" = "iVBORw0KGgo="%string
  /\ cleanBase64 "data:image/jpeg;base64," = "data:image/jpeg;base64,"%string.
Proof.
  destruct (cleanBase64_payload "data:image/jpeg;base64" "iVBORw0KGgo="
              ltac:(cbn; intuition discriminate)
              ltac:(cbn; intuition discriminate)) as (Hplain & Hurl).
  destruct (cleanBase64_payload "data:image/jpeg;base64" ""
              ltac:(cbn; intuition discriminate)
              ltac:(cbn; tauto)) as (_ & Hempty).
  split; [ exact Hplain | ].
  split; [ exact Hurl | exact Hempty ].
Defined.

(** X18.  An image made by [generateImageAssets] can be sent back to
    [editImage]: the text the first returns is the data URL of the first
    part that carries inline data, and from that text the second recovers
    those data exactly, provided they are not empty and hold no comma (as
    no base64 text does). *)
Theorem edit_after_generate (parts : list (option string)) (url : string) :
  firstImage parts = Some url ->
  exists pre d post,
    parts = pre ++ Some d :: post
    /\ Forall (fun p => p = None) pre
    /\ url = dataUrl d
    /\ (d <> ""%string -> ~ In ","%char (chars d) -> cleanBase64 url = d).
Proof.
  induction parts as [ | [d | ] parts IH ]; cbn [firstImage].
  - discriminate.
  - intros [= <-]. exists [], d, parts.
    split; [ reflexivity | ].
    split; [ constructor | ].
    split; [ reflexivity | ].
    intros Hne Hd. unfold dataUrl.
    change ("data:image/png;base64," ++ d)%string
      with ("data:image/png;base64" ++ "," ++ d)%string.
    rewrite (cleanBase64_split "data:image/png;base64" d
               ltac:(cbn; intuition discriminate) Hd).
    destruct d; [ contradiction | reflexivity ].
  - intros H. destruct (IH H) as (pre & d & post & -> & Hpre & Hurl & Hclean).
    exists (None :: pre), d, post.
    split; [ reflexivity | ].
    split; [ constructor; [ reflexivity | exact Hpre ] | ].
    split; assumption.
Qed.

Lemma edit_after_generate_witness :
  exists pre d post,
    [None; Some "iVBORw0KGgo="%string; Some "AAAA"%string]
    = pre ++ Some d :: post
    /\ Forall (fun p => p = None) pre
    /\ dataUrl "iVBORw0KGgo=" = dataUrl d
    /\ (d <> ""%string -> ~ In ","%char (chars d) ->
        cleanBase64 (dataUrl "iVBORw0KGgo=") = d).
Proof.
  apply (edit_after_generate
           [None; Some "iVBORw0KGgo="%string; Some "AAAA"%string]).
  reflexivity.
Defined.

End Paragraphs.

(** ** The font stack and the corner radius of the preview *)

(** X19.  The font stack of the preview: each font the panel offers has a
    stack of its own in the table; a name the table does not know gets the
    stack of [sans]; but a name of a member of [Object.prototype] finds
    that member in the table, and the fallback does not apply. *)
Theorem fontFamilyVar_cases (fontFamily : string) :
  (In fontFamily fontOptions ->
     exists stack, entry fontMap fontFamily = Some stack
                   /\ stack <> ""%string
                   /\ fontFamilyVar fontFamily = Own stack)
  /\ (In fontFamily Object_prototype -> fontFamilyVar fontFamily = Inherited)
  /\ (~ In fontFamily fontOptions -> ~ In fontFamily Object_prototype ->
      fontFamilyVar fontFamily = fontFamilyVar "sans").
Proof.
  split; [ | split ].
  - intros Hin. cbn [fontOptions In] in Hin.
    repeat (destruct Hin as [<- | Hin];
            [ eexists; split; [ reflexivity | split;
                [ discriminate | reflexivity ] ] | ]).
    contradiction.
  - intros Hin. cbn [Object_prototype In] in Hin.
    repeat (destruct Hin as [<- | Hin]; [ reflexivity | ]).
    contradiction.
  - intros Hopt Hproto.
    unfold fontFamilyVar, get at 1.
    cbn [fontMap entry Object_prototype existsb].
    cbn [fontOptions Object_prototype In] in Hopt, Hproto.
    by_name fontFamily; try (exfalso; tauto).
    reflexivity.
Qed.

Lemma fontFamilyVar_cases_witness :
  fontFamilyVar "serif" = Own "ui-serif, Georgia, serif"
  /\ fontFamilyVar "constructor" = Inherited
  /\ fontFamilyVar "Comic Sans" = Own "ui-sans-serif, system-ui, sans-serif".
Proof.
  split; [ | split ].
  - destruct (proj1 (fontFamilyVar_cases "serif"))
      as (stack & Hentry & _ & Hvar).
    + cbn. tauto.
    + injection Hentry as <-. exact Hvar.
  - apply (proj1 (proj2 (fontFamilyVar_cases "constructor"))).
    cbn. tauto.
  - apply (proj2 (proj2 (fontFamilyVar_cases "Comic Sans")));
      cbn; intuition discriminate.
Defined.

(** X20.  The corner radius has no fallback: for a name that is neither
    one of the five of the panel nor a member of [Object.prototype] the
    custom property is undefined.  And the Tailwind preset of the
    blueprint agrees with the preview on three names only, [none], [md]
    and [full]: for [sm] and [lg] it prints the radius of [md]. *)
Theorem radius_preview_and_preset (borderRadius : string) :
  (radiusVar borderRadius = Undefined
   <-> ~ In borderRadius radiusOptions /\ ~ In borderRadius Object_prototype)
  /\ (radiusVar borderRadius = Own (tailwindRadius borderRadius)
      <-> In borderRadius [ "none"; "md"; "full" ]%string)
  /\ (In borderRadius [ "sm"; "lg" ]%string ->
      tailwindRadius borderRadius = tailwindRadius "md").
Proof.
  unfold radiusVar, get, tailwindRadius.
  cbn [radiusMap entry Object_prototype existsb radiusOptions In].
  split; [ | split ].
  - by_name borderRadius; cbn [orb];
      (split; [ intros H | intros [H1 H2] ]);
      try discriminate H; try reflexivity;
      try (exfalso; intuition congruence); intuition congruence.
  - by_name borderRadius; cbn [orb];
      (split; intros H);
      try discriminate H; try reflexivity;
      try (exfalso; intuition congruence); intuition congruence.
  - intros [<- | [<- | []]]; reflexivity.
Qed.

Lemma radius_preview_and_preset_witness :
  radiusVar "xl" = Undefined
  /\ radiusVar "full" = Own (tailwindRadius "full")
  /\ tailwindRadius "lg" = tailwindRadius "md".
Proof.
  destruct (radius_preview_and_preset "xl") as (Hnone & _ & _).
  destruct (radius_preview_and_preset "full") as (_ & Hsame & _).
  destruct (radius_preview_and_preset "lg") as (_ & _ & Hmd).
  split; [ apply Hnone; cbn; intuition discriminate | ].
  split; [ apply Hsame; cbn; tauto | apply Hmd; cbn; tauto ].
Defined.

(** ** Reloading what the effect stored *)




